(** * Snapshot history and replay verification of rx ([src/src/resources.rs])

    A shallow embedding of [Hash] and its text encoding, the replay verifier
    of [Resources] ([record_screen], [verify_screen]), the per-view snapshot
    history [ViewResources] and the frame delay of [save_view_gif].

    Bytes ([u8]) are [Z] values in [0, 256); [usize] is [nat]; the unsigned
    fields of [std::time::Duration] are [N].  The crates the code calls into
    (MeowHash for [Resources::hash], snap for [Compressed], rgx's
    [Bgra8::align]) are section variables. *)

From Stdlib Require Import List ZArith NArith Arith Lia String Ascii Bool.
Import ListNotations.
Open Scope list_scope.

(** ** Hash: [pub struct Hash([u8; 4])] *)

Record Hash := mkHash { h0 : Z; h1 : Z; h2 : Z; h3 : Z }.

(** [#[derive(PartialEq)]]: byte-wise equality. *)
Definition hash_eqb (a b : Hash) : bool :=
  Z.eqb (h0 a) (h0 b) && Z.eqb (h1 a) (h1 b) &&
  Z.eqb (h2 a) (h2 b) && Z.eqb (h3 a) (h3 b).

(** [Option<Hash>] equality, as used by [Some(actual.clone()) == self.last_verified]. *)
Definition opt_hash_eqb (a b : option Hash) : bool :=
  match a, b with
  | Some x, Some y => hash_eqb x y
  | None, None => true
  | _, _ => false
  end.

(** ** [impl FromStr for Hash] *)

(** Decimal rendering of a [u8], i.e. [format!("{:?}", c)] for [c : u8]. *)
Fixpoint dec_digits (fuel n : nat) (acc : string) : string :=
  match fuel with
  | O => acc
  | S f =>
      let acc' := String (ascii_of_nat (48 + n mod 10)) acc in
      if n <? 10 then acc' else dec_digits f (n / 10) acc'
  end.

Definition u8_debug (c : Z) : string := dec_digits 4 (Z.to_nat c) EmptyString.

(** Lower-case hexadecimal digits without leading zeros ([{:x}]). *)
Fixpoint hex_digits (fuel n : nat) (acc : string) : string :=
  match fuel with
  | O => acc
  | S f =>
      let d := n mod 16 in
      let acc' := String (ascii_of_nat (if d <? 10 then 48 + d else 87 + d)) acc in
      if n <? 16 then acc' else hex_digits f (n / 16) acc'
  end.

Definition quote : string := String (ascii_of_nat 34) EmptyString.
Definition backslash : string := String (ascii_of_nat 92) EmptyString.

(** [char::escape_debug] on the ASCII characters a Rocq [string] holds
    (inside a [str], a single quote is not escaped). *)
Definition escape_debug_char (a : ascii) : string :=
  let n := nat_of_ascii a in
  if n =? 34 then backslash ++ quote
  else if n =? 92 then backslash ++ backslash
  else if n =? 10 then backslash ++ "n"
  else if n =? 13 then backslash ++ "r"
  else if n =? 9 then backslash ++ "t"
  else if n =? 0 then backslash ++ "0"
  else if (n <? 32) || (n =? 127) then
    backslash ++ "u{" ++ hex_digits 4 n EmptyString ++ "}"
  else String a EmptyString.

Fixpoint escape_debug (s : string) : string :=
  match s with
  | EmptyString => EmptyString
  | String a r => escape_debug_char a ++ escape_debug r
  end.

(** [format!("{:?}", input)] for [input : &str]. *)
Definition str_debug (s : string) : string := quote ++ escape_debug s ++ quote.

(** [input.bytes()]. *)
Fixpoint str_bytes (s : string) : list Z :=
  match s with
  | EmptyString => []
  | String a r => Z.of_nat (nat_of_ascii a) :: str_bytes r
  end.

(** [<[u8]>::chunks(2)]: pairs, and a last chunk of one byte on odd length. *)
Fixpoint chunks2 (l : list Z) : list (list Z) :=
  match l with
  | [] => []
  | [a] => [[a]]
  | a :: b :: t => [a; b] :: chunks2 t
  end.

(** The closure [val]. *)
Definition val (c : Z) : Z + string :=
  if (97 <=? c)%Z && (c <=? 102)%Z then inl (c - 97 + 10)%Z
  else if (48 <=? c)%Z && (c <=? 57)%Z then inl (c - 48)%Z
  else inr ("invalid hex character " ++ u8_debug c)%string.

(** The [for pair in ...chunks(2)] loop, pushing onto [hash]; [inr] is the
    early [return Err(..)] (and the [?] on [val]). *)
Fixpoint hex_pairs (input : string) (cs : list (list Z)) (hash : list Z)
  : list Z + string :=
  match cs with
  | [] => inl hash
  | [l; r] :: rest =>
      match val l with
      | inr e => inr e
      | inl vl =>
          let left_ := (Z.shiftl vl 4 mod 256)%Z in
          match val r with
          | inr e => inr e
          | inl right_ => hex_pairs input rest (hash ++ [Z.lor left_ right_])
          end
      end
  | _ :: _ => inr ("invalid hex string: " ++ str_debug input)%string
  end.

(** Outcome of [from_str]: [Ok], [Err(msg)], or a panic of
    [array.copy_from_slice] (source and destination lengths differ). *)
Inductive FromStrResult :=
| Ok (h : Hash)
| Err (msg : string)
| Panic.

Definition from_str (input : string) : FromStrResult :=
  match hex_pairs input (chunks2 (str_bytes input)) [] with
  | inr e => Err e
  | inl [a; b; c; d] => Ok (mkHash a b c d)
  | inl _ => Panic
  end.

(** ** [impl fmt::Display for Hash] *)

(** [write!(f, "{:02x}", byte)]: lower-case hexadecimal, padded with zeros
    to two digits (a [u8] has at most two). *)
Definition fmt_02x (b : Z) : string :=
  let s := hex_digits 2 (Z.to_nat b) EmptyString in
  if String.length s <? 2 then ("0" ++ s)%string else s.

(** [hash.to_string()]: the four bytes in order. *)
Definition hash_to_string (h : Hash) : string :=
  (fmt_02x (h0 h) ++ fmt_02x (h1 h) ++ fmt_02x (h2 h) ++ fmt_02x (h3 h))%string.

(** ** Frame delay of [ResourceManager::save_view_gif] *)

(** [std::time::Duration]: whole seconds ([u64]) and nanoseconds ([u32],
    below 10^9). *)
Record Duration := mkDuration { secs : N; nanos : N }.

(** [Duration::from_millis]. *)
Definition from_millis (ms : N) : Duration :=
  mkDuration (ms / 1000) ((ms mod 1000) * 1000000).

(** [Duration::as_millis] ([u128]). *)
Definition as_millis (d : Duration) : N :=
  secs d * 1000 + nanos d / 1000000.

(** [u128::min(frame_delay, u16::max_value() as u128) as u16], the cast
    keeping the low 16 bits. *)
Definition gif_frame_delay (d : Duration) : N :=
  (N.min (as_millis d / 10) 65535) mod 65536.

(** The fields of [gif::Frame] that [save_view_gif] sets. *)
Inductive DisposalMethod := Any | Keep | Background | Previous.

Record GifFrame := mkGifFrame {
  frame_rgba : list Z;
  delay : N;
  dispose : DisposalMethod
}.

(** The [for mut frame in frames.iter_mut()] loop: each discrete frame gets
    [frame.delay = frame_delay] and [frame.dispose = Background]. *)
Definition gif_frames (frames : list (list Z)) (frame_delay : Duration)
  : list GifFrame :=
  let d := gif_frame_delay frame_delay in
  map (fun f => mkGifFrame f d Background) frames.

(** ** rgx's [NonEmpty<T>]: a head and a tail vector *)

Record NonEmpty (A : Type) := mkNonEmpty { ne_head : A; ne_tail : list A }.
Arguments mkNonEmpty {A}.
Arguments ne_head {A}.
Arguments ne_tail {A}.

Definition ne_new {A} (x : A) : NonEmpty A := mkNonEmpty x [].

Definition ne_to_list {A} (n : NonEmpty A) : list A := ne_head n :: ne_tail n.

Definition ne_len {A} (n : NonEmpty A) : nat := S (List.length (ne_tail n)).

Definition ne_get {A} (n : NonEmpty A) (i : nat) : option A :=
  match i with
  | O => Some (ne_head n)
  | S j => nth_error (ne_tail n) j
  end.

Definition ne_push {A} (n : NonEmpty A) (x : A) : NonEmpty A :=
  mkNonEmpty (ne_head n) (ne_tail n ++ [x])%list.

(** [NonEmpty::truncate(len)] keeps the head and truncates the tail to
    [len - 1] elements. *)
Definition ne_truncate {A} (n : NonEmpty A) (len : nat) : NonEmpty A :=
  mkNonEmpty (ne_head n) (firstn (len - 1) (ne_tail n)).

(** ** [BTreeMap<K, V>] with [usize]/[u16] keys: an association list in
    key order, each key at most once *)

(** [BTreeMap::get]. *)
Fixpoint btree_get {A} (k : nat) (m : list (nat * A)) : option A :=
  match m with
  | [] => None
  | (k', v) :: t => if k =? k' then Some v else btree_get k t
  end.

(** [BTreeMap::insert]: replaces the value of a present key, otherwise adds
    the entry at its place in key order. *)
Fixpoint btree_insert {A} (k : nat) (v : A) (m : list (nat * A)) : list (nat * A) :=
  match m with
  | [] => [(k, v)]
  | (k', v') :: t =>
      if k =? k' then (k, v) :: t
      else if k <? k' then (k, v) :: m
      else (k', v') :: btree_insert k v t
  end.

(** [BTreeMap::remove]: drops the entry of the key (there is at most one). *)
Definition btree_remove {A} (k : nat) (m : list (nat * A)) : list (nat * A) :=
  filter (fun e => negb (fst e =? k)) m.

Section Resources.

(** [Bgra8]: the pixel type of the live cache, and [Bgra8::align], which
    reinterprets a byte slice as pixels (from rgx). *)
Variable Bgra8 : Type.
Variable align : list Z -> list Bgra8.

(** snap's [Encoder::compress_vec] and [Decoder::decompress_vec];
    [None] is an [Err] of [snap::Result]. *)
Variable compress_vec : list Z -> option (list Z).
Variable decompress_vec : list Z -> option (list Z).

(** [MeowHasher::digest] truncated to its first four bytes. *)
Variable meow_hash4 : list Z -> Hash.

(** *** [Snapshot] *)

Record Snapshot := mkSnapshot {
  id : nat;                 (* SnapshotId(usize) *)
  fw : Z;
  fh : Z;
  nframes : nat;
  size : nat;
  spixels : list Z          (* Compressed<Box<[u8]>> *)
}.

(** [Snapshot::new]; [None] is the panic of
    [.expect("compressing snapshot shouldn't result in an error")].  The
    [debug_assert!] on the size is not part of release builds. *)
Definition Snapshot_new (sid : nat) (pixels : list Z) (fw fh : Z) (nframes : nat)
  : option Snapshot :=
  let size := List.length pixels in
  match compress_vec pixels with
  | None => None
  | Some c => Some (mkSnapshot sid fw fh nframes size c)
  end.

(** [Snapshot::pixels]; [None] is the panic of its [.expect]. *)
Definition Snapshot_pixels (s : Snapshot) : option (list Bgra8) :=
  match decompress_vec (spixels s) with
  | None => None
  | Some b => Some (align b)
  end.

(** *** [ViewResources] *)

Record ViewResources := mkViewResources {
  snapshots : NonEmpty Snapshot;
  snapshot : nat;            (* the cursor *)
  pixels : list Bgra8        (* decompressed cache *)
}.

(** [ViewResources::new]. *)
Definition ViewResources_new (pixels : list Z) (fw fh : Z) : option ViewResources :=
  let pxs := align pixels in
  match Snapshot_new 0 pixels fw fh 1 with
  | None => None
  | Some s => Some (mkViewResources (ne_new s) 0 pxs)
  end.

(** The first statement of [push_snapshot]: when the cursor is not at the
    latest snapshot, clear the list forward. *)
Definition clear_forward (v : ViewResources) : ViewResources :=
  if Nat.eqb (snapshot v) (ne_len (snapshots v) - 1) then v
  else
    let snaps := ne_truncate (snapshots v) (snapshot v + 1) in
    mkViewResources snaps (ne_len snaps - 1) (pixels v).

(** [ViewResources::push_snapshot]. *)
Definition push_snapshot (pixels : list Z) (fw fh : Z) (nframes : nat)
  (v : ViewResources) : option ViewResources :=
  let v1 := clear_forward v in
  let cur := snapshot v1 + 1 in
  let pxs := align pixels in
  match Snapshot_new cur pixels fw fh nframes with
  | None => None
  | Some s => Some (mkViewResources (ne_push (snapshots v1) s) cur pxs)
  end.

(** [ViewResources::prev_snapshot]: the new state and the returned
    [Option<&Snapshot>]; [None] is a panic. *)
Definition prev_snapshot (v : ViewResources)
  : option (ViewResources * option Snapshot) :=
  if Nat.eqb (snapshot v) 0 then Some (v, None)
  else
    match ne_get (snapshots v) (snapshot v - 1) with
    | Some s =>
        match Snapshot_pixels s with
        | None => None
        | Some pxs => Some (mkViewResources (snapshots v) (snapshot v - 1) pxs, Some s)
        end
    | None => Some (v, None)
    end.

(** [ViewResources::next_snapshot]. *)
Definition next_snapshot (v : ViewResources)
  : option (ViewResources * option Snapshot) :=
  match ne_get (snapshots v) (snapshot v + 1) with
  | Some s =>
      match Snapshot_pixels s with
      | None => None
      | Some pxs => Some (mkViewResources (snapshots v) (snapshot v + 1) pxs, Some s)
      end
  | None => Some (v, None)
  end.

(** The calls a session makes on a view's history: push, undo, redo. *)
Inductive HistoryOp :=
| Push (pixels : list Z) (fw fh : Z) (nframes : nat)
| Undo
| Redo.

Definition step (op : HistoryOp) (v : ViewResources) : option ViewResources :=
  match op with
  | Push p w h n => push_snapshot p w h n v
  | Undo => option_map fst (prev_snapshot v)
  | Redo => option_map fst (next_snapshot v)
  end.

Fixpoint run (ops : list HistoryOp) (v : ViewResources) : option ViewResources :=
  match ops with
  | [] => Some v
  | op :: rest =>
      match step op v with
      | None => None
      | Some v' => run rest v'
      end
  end.

(** *** [Resources]: the view table and the replay verifier state *)

Record Resources := mkResources {
  data : list (nat * ViewResources);   (* BTreeMap<ViewId, ViewResources> *)
  screens : list Hash;                 (* VecDeque<Hash>, front first *)
  last_verified : option Hash
}.

Definition Resources_new : Resources := mkResources [] [] None.

Inductive VerifyResult :=
| Stale (h : Hash)
| Okay (h : Hash)
| Failure (actual expected : Hash)
| EOF.

(** [Resources::record_screen]. *)
Definition record_screen (d : list Z) (r : Resources) : Resources :=
  let hash := meow_hash4 d in
  let differs :=
    match last (map Some (screens r)) None with
    | Some h => negb (hash_eqb h hash)
    | None => true
    end in
  if differs then mkResources (data r) (screens r ++ [hash])%list (last_verified r)
  else r.

(** [Resources::verify_screen]. *)
Definition verify_screen (d : list Z) (r : Resources) : Resources * VerifyResult :=
  let actual := meow_hash4 d in
  if opt_hash_eqb (Some actual) (last_verified r) then (r, Stale actual)
  else
    let r1 := mkResources (data r) (screens r) (Some actual) in
    match screens r1 with
    | expected :: rest =>
        (mkResources (data r1) rest (last_verified r1),
         if hash_eqb actual expected then Okay actual else Failure actual expected)
    | [] => (r1, EOF)
    end.

(** Frames fed one after the other to [verify_screen]. *)
Fixpoint verify_all (ds : list (list Z)) (r : Resources)
  : Resources * list VerifyResult :=
  match ds with
  | [] => (r, [])
  | d :: rest =>
      let (r1, res) := verify_screen d r in
      let (r2, ress) := verify_all rest r1 in
      (r2, res :: ress)
  end.

(** *** [load_screen] and the recording loop *)

(** [Resources::load_screen]: [push_back] onto the expected queue. *)
Definition load_screen (h : Hash) (r : Resources) : Resources :=
  mkResources (data r) (screens r ++ [h])%list (last_verified r).

(** Frames fed one after the other to [record_screen]. *)
Fixpoint record_all (ds : list (list Z)) (r : Resources) : Resources :=
  match ds with
  | [] => r
  | d :: rest => record_all rest (record_screen d r)
  end.

(** *** The view table: [get_snapshot], [add_view], [remove_view] *)

(** The [ResourceManager] methods work on the [Resources] behind its
    [Arc<RwLock<..>>]; the lock is never poisoned in this single-threaded
    model.  Arithmetic on fixed-width integers wraps, as in a release build. *)

(** [ViewResources::current_snapshot]; [None] is the panic of its [.expect]. *)
Definition current_snapshot (v : ViewResources) : option (Snapshot * list Bgra8) :=
  match ne_get (snapshots v) (snapshot v) with
  | Some s => Some (s, pixels v)
  | None => None
  end.

(** [Resources::get_snapshot], and [get_snapshot_mut], which returns the
    same pair by mutable reference; [None] is the panic of [.expect]. *)
Definition get_snapshot (r : Resources) (k : nat) : option (Snapshot * list Bgra8) :=
  match btree_get k (data r) with
  | Some v => current_snapshot v
  | None => None
  end.


(** [ResourceManager::remove_view]. *)
Definition remove_view (k : nat) (r : Resources) : Resources :=
  mkResources (btree_remove k (data r)) (screens r) (last_verified r).

(** *** [ResourceManager::load_image] *)

(** [<[u8]>::chunks(4)]: groups of four, and a shorter last group. *)
Fixpoint chunks4 (l : list Z) : list (list Z) :=
  match l with
  | a :: b :: c :: d :: t => [a; b; c; d] :: chunks4 t
  | [] => []
  | t => [t]
  end.

(** The [for rgba in buffer.chunks(4)] loop: [[r, g, b, a]] is pushed as
    [[b, g, r, a]]; [None] is the early [Err] of kind [InvalidData]
    ("invalid pixel buffer size"). *)
Fixpoint to_bgra (cs : list (list Z)) (pixels : list Z) : option (list Z) :=
  match cs with
  | [] => Some pixels
  | [r; g; b; a] :: rest => to_bgra rest (pixels ++ [b; g; r; a])
  | _ :: _ => None
  end.

(** [ResourceManager::load_image] on the [(buffer, width, height)] that
    [image::load] returns. *)
Definition load_image (buffer : list Z) (width height : Z) : option (Z * Z * list Z) :=
  match to_bgra (chunks4 buffer) [] with
  | Some pixels => Some (width, height, pixels)
  | None => None
  end.

(** *** [ResourceManager::save_view] and the frames of [save_view_gif] *)

(** rgx's [From<Bgra8> for Rgba8]: the [r, g, b, a] channels of a pixel. *)
Variable to_rgba : Bgra8 -> Z * Z * Z * Z.

(** The BGRA to RGBA loop of [save_view] and [save_view_gif]. *)
Definition rgba_image (pxs : list Bgra8) : list Z :=
  flat_map (fun p => let '(r, g, b, a) := to_rgba p in [r; g; b; a]) pxs.

(** Whether [File::create], the PNG header and the image data are written
    without error, for a width, a height and the RGBA bytes. *)
Variable write_png : Z -> Z -> list Z -> bool.

Definition u32_wrap (x : Z) : Z := x mod 2 ^ 32.

(** [Snapshot::width] ([fw * nframes as u32]) and [Snapshot::height]. *)
Definition Snapshot_width (s : Snapshot) : Z :=
  u32_wrap (fw s * u32_wrap (Z.of_nat (nframes s))).

Definition Snapshot_height (s : Snapshot) : Z := fh s.

(** Outcome of [save_view]: [Ok((snapshot.id, (w * h) as usize))], an I/O
    [Err], or a panic. *)
Inductive SaveResult :=
| SaveOk (sid : nat) (n : Z)
| SaveErr
| SavePanic.

(** [ResourceManager::save_view]. *)
Definition save_view (k : nat) (r : Resources) : SaveResult :=
  match get_snapshot r k with
  | None => SavePanic
  | Some (s, pxs) =>
      let w := Snapshot_width s in
      let h := Snapshot_height s in
      if write_png w h (rgba_image pxs) then SaveOk (id s) (u32_wrap (w * h))
      else SaveErr
  end.

(** [&image[lo..hi]]; [None] is the out-of-range panic. *)
Definition slice (l : list Z) (lo hi : nat) : option (list Z) :=
  if (lo <=? hi) && (hi <=? List.length l) then Some (firstn (hi - lo) (skipn lo l))
  else None.

(** [frames[k].extend_from_slice(row)]; [None] is the index panic. *)
Fixpoint extend_at (frames : list (list Z)) (k : nat) (row : list Z)
  : option (list (list Z)) :=
  match frames, k with
  | [], _ => None
  | f :: fs, O => Some ((f ++ row) :: fs)
  | f :: fs, S k' => option_map (cons f) (extend_at fs k' row)
  end.

(** The loop [for i in 0..nrows] of [save_view_gif], run [n] rounds from
    [i]: row [i] of [row_nbytes] bytes goes to frame [i % nframes]. *)
Fixpoint split_rows (image : list Z) (row_nbytes nframes i n : nat)
  (frames : list (list Z)) : option (list (list Z)) :=
  match n with
  | O => Some frames
  | S n' =>
      let offset := i * row_nbytes in
      match slice image offset (offset + row_nbytes) with
      | None => None
      | Some row =>
          match extend_at frames (i mod nframes) row with
          | None => None
          | Some frames' => split_rows image row_nbytes nframes (S i) n' frames'
          end
      end
  end.

(** The part of [save_view_gif] that turns the snapshot and pixel cache
    returned by [get_snapshot_mut] into discrete frames, with the [Ok] value
    [frame_nbytes * nframes]; [usize] arithmetic is unbounded here. *)
Definition gif_strip_frames (s : Snapshot) (pxs : list Bgra8)
  : option (list (list Z) * nat) :=
  let nframes := nframes s in
  let image := rgba_image pxs in
  let fw := Z.to_nat (fw s) in
  let fh := Z.to_nat (fh s) in
  let frame_nbytes := fw * fh * 4 in
  let frames := repeat [] nframes in
  let nrows := fh * nframes in
  let row_nbytes := fw * 4 in
  match split_rows image row_nbytes nframes 0 nrows frames with
  | Some frames => Some (frames, frame_nbytes * nframes)
  | None => None
  end.

(** ** Properties *)

(** *** Helper facts on hashes, lists and the non-empty sequence *)

Lemma hash_eqb_spec (a b : Hash) : hash_eqb a b = true <-> a = b.
Proof.
  destruct a as [a0 a1 a2 a3], b as [b0 b1 b2 b3]; unfold hash_eqb; simpl.
  rewrite !andb_true_iff, !Z.eqb_eq.
  split; [intros [[[-> ->] ->] ->]; reflexivity | intros E; inversion E; auto].
Qed.

Lemma hash_eqb_refl (a : Hash) : hash_eqb a a = true.
Proof. apply hash_eqb_spec; reflexivity. Qed.

Lemma hash_eqb_neq (a b : Hash) : a <> b -> hash_eqb a b = false.
Proof.
  intros H; destruct (hash_eqb a b) eqn:E; [apply hash_eqb_spec in E; contradiction | reflexivity].
Qed.

Lemma firstn_seq_min (k s n : nat) : firstn k (seq s n) = seq s (Nat.min k n).
Proof.
  revert s n; induction k as [|k IH]; intros s n; [reflexivity|].
  destruct n as [|n]; [reflexivity|]; simpl; f_equal; apply IH.
Qed.

Lemma list_max_seq0 (k : nat) : list_max (seq 0 (S k)) = k.
Proof.
  induction k as [|k IH]; [reflexivity|].
  rewrite seq_S, list_max_app, IH; simpl; lia.
Qed.

Lemma ne_get_nth {A} (n : NonEmpty A) (i : nat) : ne_get n i = nth_error (ne_to_list n) i.
Proof. destruct i; reflexivity. Qed.

Lemma ne_len_length {A} (n : NonEmpty A) : ne_len n = List.length (ne_to_list n).
Proof. reflexivity. Qed.

Lemma ne_to_list_push {A} (n : NonEmpty A) (x : A) :
  ne_to_list (ne_push n x) = ne_to_list n ++ [x].
Proof. reflexivity. Qed.

Lemma ne_to_list_truncate {A} (n : NonEmpty A) (k : nat) :
  1 <= k -> ne_to_list (ne_truncate n k) = firstn k (ne_to_list n).
Proof.
  intros Hk; destruct k as [|k]; [lia|]; unfold ne_truncate, ne_to_list; simpl.
  rewrite Nat.sub_0_r; reflexivity.
Qed.

Section HistoryLemmas.

Abbreviation L v := (ne_to_list (snapshots v)).

Lemma clear_forward_list (v : ViewResources) :
  L (clear_forward v) = firstn (snapshot v + 1) (L v).
Proof.
  unfold clear_forward; destruct (Nat.eqb_spec (snapshot v) (ne_len (snapshots v) - 1)) as [E|E].
  - rewrite firstn_all2; [reflexivity|]; rewrite <- ne_len_length; unfold ne_len in *; lia.
  - simpl; apply ne_to_list_truncate; lia.
Qed.

Lemma clear_forward_cursor (v : ViewResources) :
  snapshot (clear_forward v) + 1 = List.length (firstn (snapshot v + 1) (L v)).
Proof.
  rewrite <- clear_forward_list, <- ne_len_length.
  unfold clear_forward; destruct (Nat.eqb_spec (snapshot v) (ne_len (snapshots v) - 1));
    unfold ne_len, ne_truncate in *; simpl in *; lia.
Qed.

Lemma push_snapshot_spec (p : list Z) (w h : Z) (n : nat) (v v' : ViewResources) :
  push_snapshot p w h n v = Some v' ->
  exists c, compress_vec p = Some c /\
    L v' = firstn (snapshot v + 1) (L v)
             ++ [mkSnapshot (List.length (firstn (snapshot v + 1) (L v))) w h n (List.length p) c] /\
    snapshot v' = List.length (firstn (snapshot v + 1) (L v)) /\
    pixels v' = align p.
Proof.
  unfold push_snapshot, Snapshot_new; destruct (compress_vec p) as [c|] eqn:Ec; [|discriminate].
  intros H; inversion H; subst; clear H; exists c; simpl.
  rewrite ne_to_list_push, clear_forward_list, <- clear_forward_cursor; auto.
Qed.

Lemma push_snapshot_some (p : list Z) (w h : Z) (n : nat) (v : ViewResources) (c : list Z) :
  compress_vec p = Some c -> exists v', push_snapshot p w h n v = Some v'.
Proof. intros E; unfold push_snapshot, Snapshot_new; rewrite E; eauto. Qed.

(** The history invariant: the cursor is in range and the snapshot at
    position [i] has id [i]. *)
Definition wf (v : ViewResources) : Prop :=
  snapshot v < ne_len (snapshots v) /\
  map id (L v) = seq 0 (ne_len (snapshots v)).

Lemma wf_new (p : list Z) (w h : Z) (v : ViewResources) :
  ViewResources_new p w h = Some v -> wf v.
Proof.
  unfold ViewResources_new, Snapshot_new; destruct (compress_vec p); [|discriminate].
  intros H; inversion H; subst; split; simpl; [unfold ne_len; simpl; lia | reflexivity].
Qed.

Lemma wf_push (p : list Z) (w h : Z) (n : nat) (v v' : ViewResources) :
  wf v -> push_snapshot p w h n v = Some v' -> wf v'.
Proof.
  intros [Hc Hid] Hp; apply push_snapshot_spec in Hp as (c & _ & HL & Hs & _).
  split; rewrite ne_len_length, HL.
  - rewrite Hs, length_app; simpl; lia.
  - rewrite map_app, <- firstn_map, Hid, firstn_seq_min, length_app, length_firstn.
    rewrite <- ne_len_length; simpl; rewrite (Nat.add_1_r (Nat.min _ _)), seq_S; reflexivity.
Qed.

Lemma wf_step (op : HistoryOp) (v v' : ViewResources) :
  wf v -> step op v = Some v' -> wf v'.
Proof.
  intros Hw; destruct op as [p w h n| |]; simpl.
  - apply wf_push; assumption.
  - unfold prev_snapshot; destruct (Nat.eqb_spec (snapshot v) 0).
    { intros H; inversion H; subst; assumption. }
    destruct (ne_get (snapshots v) (snapshot v - 1)) as [s|]; [|intros H; inversion H; subst; assumption].
    unfold Snapshot_pixels; destruct (decompress_vec (spixels s)); [|discriminate].
    intros H; inversion H; subst; destruct Hw as [Hc Hid]; split; simpl; [lia | assumption].
  - unfold next_snapshot; destruct (ne_get (snapshots v) (snapshot v + 1)) as [s|] eqn:Eg;
      [|intros H; inversion H; subst; assumption].
    unfold Snapshot_pixels; destruct (decompress_vec (spixels s)); [|discriminate].
    intros H; inversion H; subst; destruct Hw as [Hc Hid]; split; simpl; [|assumption].
    rewrite ne_get_nth in Eg; rewrite ne_len_length; apply nth_error_Some; congruence.
Qed.

Lemma wf_run (ops : list HistoryOp) (v v' : ViewResources) :
  wf v -> run ops v = Some v' -> wf v'.
Proof.
  revert v; induction ops as [|op ops IH]; intros v Hw; simpl.
  - intros H; inversion H; subst; assumption.
  - destruct (step op v) as [v1|] eqn:E; [|discriminate].
    intros H; apply (IH v1); [apply (wf_step op v); assumption | assumption].
Qed.

Lemma wf_reachable (p : list Z) (w h : Z) (ops : list HistoryOp) (v0 v : ViewResources) :
  ViewResources_new p w h = Some v0 -> run ops v0 = Some v -> wf v.
Proof. intros H0 H; apply (wf_run ops v0); [apply (wf_new p w h) |]; assumption. Qed.

End HistoryLemmas.

Lemma map_id_firstn (v : ViewResources) (k : nat) :
  wf v -> map id (firstn k (ne_to_list (snapshots v)))
          = seq 0 (List.length (firstn k (ne_to_list (snapshots v)))).
Proof.
  intros [_ Hid]; rewrite <- firstn_map, Hid, firstn_seq_min, length_firstn.
  rewrite <- ne_len_length; reflexivity.
Qed.

(** *** C5: the history is never empty and the cursor stays in range *)

(** C5: for a View History created by [ViewResources::new] and any finite
    sequence of [push_snapshot], [prev_snapshot] and [next_snapshot] calls
    (that does not panic), the snapshot sequence has at least one element and
    [0 <= cursor < len(snapshots)]. *)
Theorem history_cursor_in_range (p : list Z) (w h : Z) (ops : list HistoryOp)
  (v0 v : ViewResources) :
  ViewResources_new p w h = Some v0 -> run ops v0 = Some v ->
  1 <= ne_len (snapshots v) /\ 0 <= snapshot v < ne_len (snapshots v).
Proof.
  intros H0 H; destruct (wf_reachable p w h ops v0 v H0 H) as [Hc _].
  unfold ne_len in *; lia.
Qed.

(** *** C10: the snapshot at position [i] has id [i]; ids are reused *)

(** C10: in every history reached from [ViewResources::new] by push, undo and
    redo, the snapshot at position [i] has [SnapshotId] [i]; and a push made
    while the cursor is not at the tail gives the new snapshot the id of the
    discarded snapshot that followed the cursor, at that same position. *)
Theorem snapshot_id_is_position (p : list Z) (w h : Z) (ops : list HistoryOp)
  (v0 v : ViewResources) :
  ViewResources_new p w h = Some v0 -> run ops v0 = Some v ->
  (forall i s, nth_error (ne_to_list (snapshots v)) i = Some s -> id s = i) /\
  (forall q fw' fh' n v', snapshot v + 1 < ne_len (snapshots v) ->
     push_snapshot q fw' fh' n v = Some v' ->
     exists s_old s_new,
       nth_error (ne_to_list (snapshots v)) (snapshot v + 1) = Some s_old /\
       nth_error (ne_to_list (snapshots v')) (snapshot v + 1) = Some s_new /\
       id s_new = id s_old /\
       ne_len (snapshots v') = snapshot v + 2).
Proof.
  intros H0 H; pose proof (wf_reachable p w h ops v0 v H0 H) as Hw.
  assert (Hpos : forall i s, nth_error (ne_to_list (snapshots v)) i = Some s -> id s = i).
  { intros i s Hi; destruct Hw as [_ Hid].
    pose proof (map_nth_error id i _ Hi) as Hm; rewrite Hid, nth_error_seq in Hm.
    destruct (i <? ne_len (snapshots v)); inversion Hm; reflexivity. }
  split; [exact Hpos|].
  intros q fw' fh' n v' Hlt Hp.
  apply push_snapshot_spec in Hp as (c & _ & HL & _ & _).
  assert (Hk : List.length (firstn (snapshot v + 1) (ne_to_list (snapshots v))) = snapshot v + 1).
  { rewrite length_firstn, <- ne_len_length; lia. }
  destruct (nth_error (ne_to_list (snapshots v)) (snapshot v + 1)) as [s_old|] eqn:Eo.
  2:{ apply nth_error_None in Eo; rewrite <- ne_len_length in Eo; lia. }
  exists s_old, (mkSnapshot (snapshot v + 1) fw' fh' n (List.length q) c).
  split; [reflexivity|]; split; [|split].
  - rewrite HL, nth_error_app2 by lia; rewrite Hk, Nat.sub_diag; reflexivity.
  - simpl; symmetry; apply Hpos; assumption.
  - rewrite ne_len_length, HL, length_app, Hk; simpl; lia.
Qed.

(** *** C3: ids are dense from 0 and a push takes the previous max id + 1 *)

(** C3: in every history reached from [ViewResources::new], after a push the
    ids of the snapshots, in order, are exactly [0, 1, ..., len - 1] (strictly
    increasing and dense from 0); the push appends one snapshot to the history
    left after its truncation, with id (maximum id of that history) + 1. *)
Theorem push_snapshot_ids_dense (p : list Z) (w h : Z) (ops : list HistoryOp)
  (v0 v : ViewResources) (q : list Z) (fw' fh' : Z) (n : nat) (v' : ViewResources) :
  ViewResources_new p w h = Some v0 -> run ops v0 = Some v ->
  push_snapshot q fw' fh' n v = Some v' ->
  map id (ne_to_list (snapshots v')) = seq 0 (ne_len (snapshots v')) /\
  exists s, ne_to_list (snapshots v') = ne_to_list (snapshots (clear_forward v)) ++ [s] /\
            id s = S (list_max (map id (ne_to_list (snapshots (clear_forward v))))).
Proof.
  intros H0 H Hp; pose proof (wf_reachable p w h ops v0 v H0 H) as Hw.
  split; [apply (wf_push q fw' fh' n v v' Hw Hp)|].
  apply push_snapshot_spec in Hp as (c & _ & HL & _ & _).
  eexists; rewrite clear_forward_list; split; [exact HL|]; simpl.
  rewrite map_id_firstn by assumption.
  assert (Hm : 1 <= List.length (firstn (snapshot v + 1) (ne_to_list (snapshots v)))).
  { rewrite length_firstn, <- ne_len_length; unfold ne_len; lia. }
  destruct (List.length (firstn (snapshot v + 1) (ne_to_list (snapshots v)))) as [|m]; [lia|].
  rewrite list_max_seq0; reflexivity.
Qed.

(** *** Replay verifier *)

Lemma last_map_some_app (q0 : list Hash) (hb : Hash) :
  last (map Some (q0 ++ [hb])) None = Some hb.
Proof. rewrite map_app; apply last_last. Qed.

Lemma last_map_some_inv (l : list Hash) (hb : Hash) :
  last (map Some l) None = Some hb -> exists q0, l = q0 ++ [hb].
Proof.
  destruct l as [|x l] using rev_ind; [discriminate|].
  rewrite last_map_some_app; intros E; inversion E; subst; eauto.
Qed.

Lemma record_screen_back (d : list Z) (r : Resources) :
  exists q0, screens (record_screen d r) = q0 ++ [meow_hash4 d].
Proof.
  unfold record_screen.
  destruct (last (map Some (screens r)) None) as [hb|] eqn:E; simpl.
  - destruct (hash_eqb hb (meow_hash4 d)) eqn:Eq; simpl; [|eauto].
    apply hash_eqb_spec in Eq; subst; apply last_map_some_inv; assumption.
  - eauto.
Qed.

Lemma opt_hash_eqb_some (a : Hash) (o : option Hash) :
  opt_hash_eqb (Some a) o = true <-> o = Some a.
Proof.
  destruct o as [b|]; simpl; [rewrite hash_eqb_spec|]; split; congruence.
Qed.

(** C7: [record_screen] appends nothing when the hash of the frame equals
    the back of the expected queue, and appends exactly that hash when it
    differs from the back or the queue is empty; so recording the same frame
    twice in a row appends no more than recording it once. *)
Theorem record_screen_dedup (d : list Z) (r : Resources) :
  (forall q0 hb, screens r = q0 ++ [hb] -> hb = meow_hash4 d -> record_screen d r = r) /\
  ((screens r = [] \/ exists q0 hb, screens r = q0 ++ [hb] /\ hb <> meow_hash4 d) ->
     record_screen d r = mkResources (data r) (screens r ++ [meow_hash4 d]) (last_verified r)) /\
  record_screen d (record_screen d r) = record_screen d r.
Proof.
  assert (Same : forall r' q0 hb, screens r' = q0 ++ [hb] -> hb = meow_hash4 d ->
                   record_screen d r' = r').
  { intros r' q0 hb E ->; unfold record_screen; rewrite E, last_map_some_app, hash_eqb_refl.
    reflexivity. }
  split; [apply Same|]; split.
  - intros [E | (q0 & hb & E & Ne)]; unfold record_screen; rewrite E.
    + reflexivity.
    + rewrite last_map_some_app, hash_eqb_neq by assumption; reflexivity.
  - destruct (record_screen_back d r) as [q0 E]; apply (Same _ q0 (meow_hash4 d)); auto.
Qed.

(** The protocol of [verify_screen] for one frame [d] with hash [a]. *)
Definition verify_screen_protocol (d : list Z) (r : Resources) : Prop :=
  let a := meow_hash4 d in
  (last_verified r = Some a -> verify_screen d r = (r, Stale a)) /\
  (last_verified r <> Some a ->
     (screens r = [] -> verify_screen d r = (mkResources (data r) [] (Some a), EOF)) /\
     (forall e rest, screens r = e :: rest -> e = a ->
        verify_screen d r = (mkResources (data r) rest (Some a), Okay a)) /\
     (forall e rest, screens r = e :: rest -> e <> a ->
        verify_screen d r = (mkResources (data r) rest (Some a), Failure a e))).

Lemma verify_screen_protocol_holds (d : list Z) (r : Resources) : verify_screen_protocol d r.
Proof.
  unfold verify_screen_protocol, verify_screen; split.
  - intros E; rewrite E; simpl; rewrite hash_eqb_refl; reflexivity.
  - intros Ne.
    assert (Ef : opt_hash_eqb (Some (meow_hash4 d)) (last_verified r) = false).
    { destruct (opt_hash_eqb _ _) eqn:E; [apply opt_hash_eqb_some in E; contradiction | reflexivity]. }
    rewrite Ef; simpl; split; [|split].
    + intros E; rewrite E; reflexivity.
    + intros e rest E ->; rewrite E, hash_eqb_refl; reflexivity.
    + intros e rest E Hne; rewrite E, hash_eqb_neq by congruence; reflexivity.
Qed.

(** C1 (as amended): every call of [verify_screen] follows the protocol
    (Stale with the state unchanged when the hash equals [last_verified];
    otherwise [last_verified] becomes the hash and the queue head is popped:
    EOF on an empty queue, Okay on a match, Failure(actual, expected)
    otherwise); and with the queue [hash A; hash B; hash C] and no verified
    hash, replaying [A; A; B; C] gives Okay, Stale, Okay, Okay when
    [hash A <> hash B] and [hash B <> hash C], while replaying
    [A; A; X; C; E] gives Okay, Stale, Failure (hash X) (hash B), Okay, EOF
    when [hash X] differs from [hash A] and [hash B], [hash C <> hash X] and
    [hash E <> hash C]. *)
Theorem verify_screen_replay :
  (forall d r, verify_screen_protocol d r) /\
  (forall (A B C X E : list Z) (dt : list (nat * ViewResources)),
     let r0 := mkResources dt [meow_hash4 A; meow_hash4 B; meow_hash4 C] None in
     (meow_hash4 A <> meow_hash4 B -> meow_hash4 B <> meow_hash4 C ->
        snd (verify_all [A; A; B; C] r0)
        = [Okay (meow_hash4 A); Stale (meow_hash4 A); Okay (meow_hash4 B); Okay (meow_hash4 C)]) /\
     (meow_hash4 X <> meow_hash4 A -> meow_hash4 X <> meow_hash4 B ->
      meow_hash4 C <> meow_hash4 X -> meow_hash4 E <> meow_hash4 C ->
        snd (verify_all [A; A; X; C; E] r0)
        = [Okay (meow_hash4 A); Stale (meow_hash4 A);
           Failure (meow_hash4 X) (meow_hash4 B); Okay (meow_hash4 C); EOF])).
Proof.
  split; [exact verify_screen_protocol_holds|].
  intros A B C X E dt r0; split; intros; unfold r0;
    repeat first [ rewrite hash_eqb_refl
                 | rewrite hash_eqb_neq by congruence
                 | progress cbv [verify_all verify_screen opt_hash_eqb snd fst
                                 data screens last_verified] ]; reflexivity.
Qed.

(** *** C9: frame delay of the animated export *)

Lemma as_millis_from_millis (ms : N) : as_millis (from_millis ms) = ms.
Proof.
  unfold as_millis, from_millis; simpl.
  rewrite N.div_mul by discriminate.
  rewrite N.mul_comm; symmetry; apply N.div_mod; discriminate.
Qed.

(** C9: the delay written to every frame of the animated export is the
    frame delay's milliseconds divided by 10 (hundredths of a second),
    clamped to 65535, the largest value of the 16-bit delay field; and every
    frame is disposed to the background. *)
Theorem gif_delay_hundredths :
  (forall d, gif_frame_delay d = N.min (as_millis d / 10) 65535) /\
  (forall (frames : list (list Z)) (ms : N),
     Forall (fun f => delay f = N.min (ms / 10) 65535 /\ dispose f = Background)
            (gif_frames frames (from_millis ms))).
Proof.
  assert (Hd : forall d, gif_frame_delay d = N.min (as_millis d / 10) 65535).
  { intros d; unfold gif_frame_delay; apply N.mod_small.
    apply (N.le_lt_trans _ 65535); [apply N.le_min_r | reflexivity]. }
  split; [exact Hd|].
  intros frames ms; unfold gif_frames; apply Forall_forall.
  intros f Hf; apply in_map_iff in Hf as (x & <- & _); simpl.
  rewrite Hd, as_millis_from_millis; auto.
Qed.

(** *** Undo, redo and branch truncation *)

Lemma run_cons_some (op : HistoryOp) (ops : list HistoryOp) (v v1 : ViewResources) :
  step op v = Some v1 -> run (op :: ops) v = run ops v1.
Proof. intros E; simpl; rewrite E; reflexivity. Qed.

Lemma run_cons_inv (op : HistoryOp) (ops : list HistoryOp) (v v' : ViewResources) :
  run (op :: ops) v = Some v' -> exists v1, step op v = Some v1 /\ run ops v1 = Some v'.
Proof. simpl; destruct (step op v) as [v1|]; [eauto | discriminate]. Qed.

(** A push leaves the cursor on the snapshot it appends. *)
Lemma push_step_spec (p : list Z) (w h : Z) (n : nat) (v v' : ViewResources) :
  step (Push p w h n) v = Some v' ->
  exists c s, compress_vec p = Some c /\ spixels s = c /\
    ne_to_list (snapshots v') = firstn (snapshot v + 1) (ne_to_list (snapshots v)) ++ [s] /\
    S (snapshot v') = ne_len (snapshots v') /\ pixels v' = align p.
Proof.
  simpl; intros Hp; apply push_snapshot_spec in Hp as (c & Ec & HL & Hs & Hx).
  exists c, (mkSnapshot (List.length (firstn (snapshot v + 1) (ne_to_list (snapshots v))))
                        w h n (List.length p) c).
  split; [exact Ec|]; split; [reflexivity|]; split; [exact HL|].
  split; [|exact Hx]; rewrite ne_len_length, HL, length_app, Hs; simpl; lia.
Qed.

Lemma push_step_some (p : list Z) (w h : Z) (n : nat) (v : ViewResources) (c : list Z) :
  compress_vec p = Some c -> exists v', step (Push p w h n) v = Some v'.
Proof. simpl; apply push_snapshot_some. Qed.

Lemma undo_step_some (v : ViewResources) (j : nat) (s : Snapshot) (b : list Z) :
  snapshot v = S j -> nth_error (ne_to_list (snapshots v)) j = Some s ->
  decompress_vec (spixels s) = Some b ->
  step Undo v = Some (mkViewResources (snapshots v) j (align b)).
Proof.
  intros Hs Hn Hd; simpl; unfold prev_snapshot; rewrite Hs; simpl.
  rewrite ne_get_nth, Nat.sub_0_r, Hn; unfold Snapshot_pixels; rewrite Hd; reflexivity.
Qed.

Lemma undo_step_inv (v v' : ViewResources) (j : nat) (s : Snapshot) :
  step Undo v = Some v' -> snapshot v = S j ->
  nth_error (ne_to_list (snapshots v)) j = Some s ->
  exists b, decompress_vec (spixels s) = Some b /\
            v' = mkViewResources (snapshots v) j (align b).
Proof.
  intros H Hs Hn; simpl in H; unfold prev_snapshot in H; rewrite Hs in H; simpl in H.
  rewrite ne_get_nth, Nat.sub_0_r, Hn in H; unfold Snapshot_pixels in H.
  destruct (decompress_vec (spixels s)) as [b|]; [|discriminate].
  inversion H; subst; eauto.
Qed.

Lemma redo_step_some (v : ViewResources) (s : Snapshot) (b : list Z) :
  nth_error (ne_to_list (snapshots v)) (snapshot v + 1) = Some s ->
  decompress_vec (spixels s) = Some b ->
  step Redo v = Some (mkViewResources (snapshots v) (snapshot v + 1) (align b)).
Proof.
  intros Hn Hd; simpl; unfold next_snapshot; rewrite ne_get_nth, Hn.
  unfold Snapshot_pixels; rewrite Hd; reflexivity.
Qed.

Lemma undo_at_start (v : ViewResources) :
  snapshot v = 0 -> prev_snapshot v = Some (v, None).
Proof. intros Hs; unfold prev_snapshot; rewrite Hs; reflexivity. Qed.

Lemma redo_at_tail (v : ViewResources) :
  S (snapshot v) = ne_len (snapshots v) -> next_snapshot v = Some (v, None).
Proof.
  intros Hs; unfold next_snapshot; rewrite ne_get_nth.
  replace (nth_error _ _) with (@None Snapshot); [reflexivity|].
  symmetry; apply nth_error_None; rewrite <- ne_len_length; lia.
Qed.

Lemma redo_repeat_at_tail (v : ViewResources) (k : nat) :
  S (snapshot v) = ne_len (snapshots v) -> run (repeat Redo k) v = Some v.
Proof.
  intros Hs; induction k as [|k IH]; [reflexivity|].
  simpl repeat; rewrite (run_cons_some _ _ v v); [exact IH|].
  simpl; rewrite redo_at_tail by exact Hs; reflexivity.
Qed.

Lemma nth_error_app_len {A} (K l : list A) (i : nat) :
  nth_error (K ++ l) (List.length K + i) = nth_error l i.
Proof. rewrite nth_error_app2 by lia; f_equal; lia. Qed.

Lemma firstn_at_tail (v : ViewResources) :
  S (snapshot v) = ne_len (snapshots v) ->
  firstn (snapshot v + 1) (ne_to_list (snapshots v)) = ne_to_list (snapshots v).
Proof. intros Hs; apply firstn_all2; rewrite <- ne_len_length; lia. Qed.

(** Three pushes in a row from any history: the history kept up to the
    cursor, followed by the three new snapshots, the cursor on the last. *)
Lemma three_pushes (v v1 v2 v3 : ViewResources) (p1 p2 p3 : list Z) (w h : Z) (n : nat) :
  step (Push p1 w h n) v = Some v1 -> step (Push p2 w h n) v1 = Some v2 ->
  step (Push p3 w h n) v2 = Some v3 ->
  let K := firstn (snapshot v + 1) (ne_to_list (snapshots v)) in
  exists s1 s2 s3,
    compress_vec p1 = Some (spixels s1) /\ compress_vec p2 = Some (spixels s2) /\
    compress_vec p3 = Some (spixels s3) /\
    ne_to_list (snapshots v1) = K ++ [s1] /\ snapshot v1 = List.length K /\
    pixels v1 = align p1 /\
    ne_to_list (snapshots v3) = K ++ [s1; s2; s3] /\
    snapshot v3 = List.length K + 2 /\ pixels v3 = align p3.
Proof.
  intros S1 S2 S3 K.
  apply push_step_spec in S1 as (c1 & s1 & E1 & P1 & L1 & C1 & X1).
  apply push_step_spec in S2 as (c2 & s2 & E2 & P2 & L2 & C2 & X2).
  apply push_step_spec in S3 as (c3 & s3 & E3 & P3 & L3 & C3 & X3).
  rewrite firstn_at_tail in L2 by assumption.
  rewrite firstn_at_tail in L3 by assumption.
  subst c1 c2 c3.
  assert (HL3 : ne_to_list (snapshots v3) = K ++ [s1; s2; s3]).
  { rewrite L3, L2, L1; rewrite <- !app_assoc; reflexivity. }
  exists s1, s2, s3; repeat split; auto.
  - rewrite ne_len_length, L1, length_app in C1; simpl in C1; unfold K; lia.
  - rewrite ne_len_length, HL3, length_app in C3; simpl in C3; lia.
Qed.

(** *** C4: a push after an undo discards the undone future *)

(** C4 (as amended): a push keeps the snapshots up to the cursor, discards those after
    it, then appends the new snapshot with the cursor on it; so after pushing
    [p1], [p2], [p3], one undo and a push of [p4], the history is what it held
    up to its cursor followed by the snapshots of [p1], [p2], [p4] (the
    compressed buffers), the cursor is on [p4], and any number of redo calls
    leaves this state unchanged ([p3] is unreachable). *)
Theorem push_after_undo_truncates :
  (forall q fw' fh' n v v', push_snapshot q fw' fh' n v = Some v' ->
     exists s, ne_to_list (snapshots v') = firstn (snapshot v + 1) (ne_to_list (snapshots v)) ++ [s] /\
               S (snapshot v') = ne_len (snapshots v')) /\
  (forall v v' p1 p2 p3 p4 w h n c1 c2 c4,
     compress_vec p1 = Some c1 -> compress_vec p2 = Some c2 -> compress_vec p4 = Some c4 ->
     run [Push p1 w h n; Push p2 w h n; Push p3 w h n; Undo; Push p4 w h n] v = Some v' ->
     map spixels (ne_to_list (snapshots v'))
       = map spixels (firstn (snapshot v + 1) (ne_to_list (snapshots v))) ++ [c1; c2; c4] /\
     S (snapshot v') = ne_len (snapshots v') /\
     (forall k, run (repeat Redo k) v' = Some v')).
Proof.
  split.
  { intros q fw' fh' n v v' Hp.
    destruct (push_step_spec q fw' fh' n v v' Hp) as (c & s & _ & _ & HL & Hc & _); eauto. }
  intros v v' p1 p2 p3 p4 w h n c1 c2 c4 H1 H2 H4 E.
  apply run_cons_inv in E as (v1 & S1 & E).
  apply run_cons_inv in E as (v2 & S2 & E).
  apply run_cons_inv in E as (v3 & S3 & E).
  apply run_cons_inv in E as (v4 & S4 & E).
  apply run_cons_inv in E as (v5 & S5 & E).
  simpl in E; inversion E; subst v5; clear E.
  destruct (three_pushes v v1 v2 v3 p1 p2 p3 w h n S1 S2 S3)
    as (s1 & s2 & s3 & E1 & E2 & _ & _ & _ & _ & L3 & C3 & _).
  set (K := firstn (snapshot v + 1) (ne_to_list (snapshots v))) in *.
  assert (N2 : nth_error (ne_to_list (snapshots v3)) (List.length K + 1) = Some s2).
  { rewrite L3, nth_error_app_len; reflexivity. }
  destruct (undo_step_inv v3 v4 (List.length K + 1) s2 S4) as (b & _ & ->); [lia | exact N2 |].
  apply push_step_spec in S5 as (c4' & s4 & E4 & P4 & L5 & C5 & _); simpl in L5.
  rewrite L3 in L5.
  replace (List.length K + 1 + 1) with (List.length K + 2) in L5 by lia.
  rewrite firstn_app_2 in L5; simpl in L5.
  split; [|split; [exact C5 | intros k; apply redo_repeat_at_tail; exact C5]].
  assert (Q1 : spixels s1 = c1) by congruence.
  assert (Q2 : spixels s2 = c2) by congruence.
  assert (Q4 : spixels s4 = c4) by congruence.
  rewrite L5, !map_app, <- app_assoc; simpl; rewrite Q1, Q2, Q4; reflexivity.
Qed.

(** *** C6: undo and redo are symmetric *)

(** C6: undo at cursor 0 and redo at the tail change nothing and return no
    snapshot; and from any history, after pushing [p1], [p2], [p3] (whose
    compressed forms decompress back to them), two undo calls give the live
    pixels that followed the push of [p1], and two redo calls after them give
    the live pixels that followed the push of [p3]. *)
Theorem undo_redo_symmetry :
  (forall v, snapshot v = 0 -> prev_snapshot v = Some (v, None)) /\
  (forall v, S (snapshot v) = ne_len (snapshots v) -> next_snapshot v = Some (v, None)) /\
  (forall v p1 p2 p3 w h n c1 c2 c3,
     compress_vec p1 = Some c1 -> decompress_vec c1 = Some p1 ->
     compress_vec p2 = Some c2 -> decompress_vec c2 = Some p2 ->
     compress_vec p3 = Some c3 -> decompress_vec c3 = Some p3 ->
     exists v1 v3 vu vr,
       run [Push p1 w h n] v = Some v1 /\
       run [Push p1 w h n; Push p2 w h n; Push p3 w h n] v = Some v3 /\
       run [Push p1 w h n; Push p2 w h n; Push p3 w h n; Undo; Undo] v = Some vu /\
       pixels vu = pixels v1 /\
       run [Push p1 w h n; Push p2 w h n; Push p3 w h n; Undo; Undo; Redo; Redo] v = Some vr /\
       pixels vr = pixels v3).
Proof.
  split; [exact undo_at_start|]; split; [exact redo_at_tail|].
  intros v p1 p2 p3 w h n c1 c2 c3 H1 D1 H2 D2 H3 D3.
  destruct (push_step_some p1 w h n v c1 H1) as [v1 S1].
  destruct (push_step_some p2 w h n v1 c2 H2) as [v2 S2].
  destruct (push_step_some p3 w h n v2 c3 H3) as [v3 S3].
  destruct (three_pushes v v1 v2 v3 p1 p2 p3 w h n S1 S2 S3)
    as (s1 & s2 & s3 & E1 & E2 & E3 & _ & _ & X1 & L3 & C3 & X3).
  set (K := firstn (snapshot v + 1) (ne_to_list (snapshots v))) in *.
  assert (Q1 : decompress_vec (spixels s1) = Some p1) by congruence.
  assert (Q2 : decompress_vec (spixels s2) = Some p2) by congruence.
  assert (Q3 : decompress_vec (spixels s3) = Some p3) by congruence.
  pose proof (nth_error_app_len K [s1; s2; s3] 0) as N1; rewrite Nat.add_0_r in N1.
  pose proof (nth_error_app_len K [s1; s2; s3] 1) as N2.
  pose proof (nth_error_app_len K [s1; s2; s3] 2) as N3.
  rewrite <- L3 in N1, N2, N3; simpl in N1, N2, N3.
  assert (U1 : step Undo v3
               = Some (mkViewResources (snapshots v3) (List.length K + 1) (align p2))).
  { apply (undo_step_some v3 _ s2); [lia | exact N2 | exact Q2]. }
  assert (U2 : step Undo (mkViewResources (snapshots v3) (List.length K + 1) (align p2))
               = Some (mkViewResources (snapshots v3) (List.length K) (align p1))).
  { apply (undo_step_some (mkViewResources (snapshots v3) (List.length K + 1) (align p2)) _ s1);
      [simpl; lia | exact N1 | exact Q1]. }
  assert (R1 : step Redo (mkViewResources (snapshots v3) (List.length K) (align p1))
               = Some (mkViewResources (snapshots v3) (List.length K + 1) (align p2))).
  { apply (redo_step_some (mkViewResources (snapshots v3) (List.length K) (align p1)) s2);
      [exact N2 | exact Q2]. }
  assert (R2 : step Redo (mkViewResources (snapshots v3) (List.length K + 1) (align p2))
               = Some (mkViewResources (snapshots v3) (List.length K + 2) (align p3))).
  { replace (List.length K + 2) with (List.length K + 1 + 1) by lia.
    apply (redo_step_some (mkViewResources (snapshots v3) (List.length K + 1) (align p2)) s3);
      [simpl; replace (List.length K + 1 + 1) with (List.length K + 2) by lia;
                                  exact N3 | exact Q3]. }
  exists v1, v3, (mkViewResources (snapshots v3) (List.length K) (align p1)),
         (mkViewResources (snapshots v3) (List.length K + 2) (align p3)).
  repeat split.
  - rewrite (run_cons_some _ _ v v1 S1); reflexivity.
  - rewrite (run_cons_some _ _ v v1 S1), (run_cons_some _ _ v1 v2 S2), (run_cons_some _ _ v2 v3 S3).
    reflexivity.
  - rewrite (run_cons_some _ _ v v1 S1), (run_cons_some _ _ v1 v2 S2), (run_cons_some _ _ v2 v3 S3).
    rewrite (run_cons_some _ _ _ _ U1), (run_cons_some _ _ _ _ U2); reflexivity.
  - simpl; symmetry; exact X1.
  - rewrite (run_cons_some _ _ v v1 S1), (run_cons_some _ _ v1 v2 S2), (run_cons_some _ _ v2 v3 S3).
    rewrite (run_cons_some _ _ _ _ U1), (run_cons_some _ _ _ _ U2).
    rewrite (run_cons_some _ _ _ _ R1), (run_cons_some _ _ _ _ R2); reflexivity.
  - simpl; symmetry; exact X3.
Qed.

(** *** Recording, loading and replaying a run of frames *)

Lemma hash_eqb_sym (a b : Hash) : hash_eqb a b = hash_eqb b a.
Proof.
  destruct (hash_eqb a b) eqn:E; symmetry.
  - apply hash_eqb_spec in E; subst; apply hash_eqb_refl.
  - destruct (hash_eqb b a) eqn:F; [apply hash_eqb_spec in F; subst|reflexivity].
    rewrite hash_eqb_refl in E; discriminate.
Qed.

(** The hashes of a run of frames, each repeat of the hash before it left
    out; [prev] is the hash before the first one. *)
Fixpoint dedup_from (prev : option Hash) (hs : list Hash) : list Hash :=
  match hs with
  | [] => []
  | h :: t =>
      if opt_hash_eqb (Some h) prev then dedup_from prev t
      else h :: dedup_from (Some h) t
  end.

Lemma record_all_spec (ds : list (list Z)) (r : Resources) :
  record_all ds r =
  mkResources (data r)
    (screens r ++ dedup_from (last (map Some (screens r)) None) (map meow_hash4 ds))%list
    (last_verified r).
Proof.
  revert r; induction ds as [|d ds IH]; intros r; simpl.
  - rewrite app_nil_r; destruct r; reflexivity.
  - rewrite IH; unfold record_screen.
    destruct (last (map Some (screens r)) None) as [hb|] eqn:E; simpl.
    + rewrite (hash_eqb_sym (meow_hash4 d) hb).
      destruct (hash_eqb hb (meow_hash4 d)) eqn:Eq; simpl.
      * rewrite E; reflexivity.
      * rewrite last_map_some_app, <- app_assoc; reflexivity.
    + rewrite last_map_some_app, <- app_assoc; reflexivity.
Qed.

Lemma fold_load_screen (q : list Hash) (r : Resources) :
  fold_left (fun r h => load_screen h r) q r =
  mkResources (data r) (screens r ++ q)%list (last_verified r).
Proof.
  revert r; induction q as [|h q IH]; intros r; simpl.
  - rewrite app_nil_r; destruct r; reflexivity.
  - rewrite IH; simpl; rewrite <- app_assoc; reflexivity.
Qed.

Lemma last_cons_default {A} (x : A) (l : list A) (d : A) : last (x :: l) d = last l x.
Proof.
  revert x d; induction l as [|y l IH]; intros x d; [reflexivity|].
  change (last (y :: l) d = last (y :: l) x); rewrite !IH; reflexivity.
Qed.

Abbreviation okay_or_stale res := (exists h, res = Okay h \/ res = Stale h).

Lemma verify_dedup (ds : list (list Z)) (D : list (nat * ViewResources)) (Lv : option Hash) :
  Forall (fun res => okay_or_stale res)
    (snd (verify_all ds (mkResources D (dedup_from Lv (map meow_hash4 ds)) Lv))) /\
  fst (verify_all ds (mkResources D (dedup_from Lv (map meow_hash4 ds)) Lv)) =
  mkResources D [] (last (map (fun d => Some (meow_hash4 d)) ds) Lv).
Proof.
  revert Lv; induction ds as [|d ds IH]; intros Lv; [split; [constructor | reflexivity]|].
  simpl map; rewrite last_cons_default; cbn [dedup_from verify_all].
  destruct (opt_hash_eqb (Some (meow_hash4 d)) Lv) eqn:E.
  - assert (Hs : verify_screen d (mkResources D (dedup_from Lv (map meow_hash4 ds)) Lv)
                 = (mkResources D (dedup_from Lv (map meow_hash4 ds)) Lv, Stale (meow_hash4 d))).
    { unfold verify_screen; cbn [screens data last_verified]; rewrite E; reflexivity. }
    rewrite Hs; destruct (IH Lv) as [HF Hr].
    destruct (verify_all ds _) as [r2 ress]; simpl in *; split.
    + constructor; [eauto | assumption].
    + apply opt_hash_eqb_some in E; rewrite Hr, E; reflexivity.
  - assert (Hs : verify_screen d (mkResources D (meow_hash4 d :: dedup_from (Some (meow_hash4 d))
                                                  (map meow_hash4 ds)) Lv)
                 = (mkResources D (dedup_from (Some (meow_hash4 d)) (map meow_hash4 ds))
                      (Some (meow_hash4 d)), Okay (meow_hash4 d))).
    { unfold verify_screen; cbn [screens data last_verified]; rewrite E, hash_eqb_refl; reflexivity. }
    rewrite Hs; destruct (IH (Some (meow_hash4 d))) as [HF Hr].
    destruct (verify_all ds _) as [r2 ress]; simpl in *; split.
    + constructor; [eauto | assumption].
    + exact Hr.
Qed.

(** X2: recording a run of frames with [record_screen], loading the
    recorded queue hash by hash with [load_screen] into fresh [Resources],
    and replaying the same frames with [verify_screen] reports only Okay and
    Stale (never a Failure or EOF), uses up the whole queue, and leaves the
    hash of the last frame as the last verified one. *)
Theorem record_load_replay (ds : list (list Z)) :
  let q := screens (record_all ds Resources_new) in
  let r := fold_left (fun r h => load_screen h r) q Resources_new in
  Forall (fun res => exists h, res = Okay h \/ res = Stale h) (snd (verify_all ds r)) /\
  screens (fst (verify_all ds r)) = [] /\
  last_verified (fst (verify_all ds r)) = last (map (fun d => Some (meow_hash4 d)) ds) None.
Proof.
  cbv zeta; rewrite record_all_spec, fold_load_screen; simpl.
  destruct (verify_dedup ds [] None) as [HF Hr]; rewrite Hr; auto.
Qed.

(** *** The view table *)

Lemma btree_get_insert_same {A} (k : nat) (v : A) (m : list (nat * A)) :
  btree_get k (btree_insert k v m) = Some v.
Proof.
  induction m as [|[k' v'] t IH]; simpl; [rewrite Nat.eqb_refl; reflexivity|].
  destruct (k =? k') eqn:E; simpl; [rewrite Nat.eqb_refl; reflexivity|].
  destruct (k <? k'); simpl; [rewrite Nat.eqb_refl | rewrite E]; auto.
Qed.

Lemma btree_get_insert_other {A} (k k' : nat) (v : A) (m : list (nat * A)) :
  k' <> k -> btree_get k' (btree_insert k v m) = btree_get k' m.
Proof.
  intros Ne; apply Nat.eqb_neq in Ne.
  induction m as [|[j w] t IH]; simpl; [rewrite Ne; reflexivity|].
  destruct (k =? j) eqn:E; simpl.
  - apply Nat.eqb_eq in E; subst j; rewrite Ne; reflexivity.
  - destruct (k <? j); simpl; [rewrite Ne; reflexivity|].
    destruct (k' =? j); [reflexivity | exact IH].
Qed.

Lemma btree_get_remove_same {A} (k : nat) (m : list (nat * A)) :
  btree_get k (btree_remove k m) = None.
Proof.
  unfold btree_remove; induction m as [|[j w] t IH]; simpl; [reflexivity|].
  destruct (j =? k) eqn:E; simpl; [exact IH|].
  rewrite Nat.eqb_sym, E; exact IH.
Qed.

Lemma btree_get_remove_other {A} (k k' : nat) (m : list (nat * A)) :
  k' <> k -> btree_get k' (btree_remove k m) = btree_get k' m.
Proof.
  intros Ne; unfold btree_remove; induction m as [|[j w] t IH]; simpl; [reflexivity|].
  destruct (j =? k) eqn:E; simpl.
  - apply Nat.eqb_eq in E; subst j; apply Nat.eqb_neq in Ne; rewrite Ne; exact IH.
  - destruct (k' =? j); [reflexivity | exact IH].
Qed.


(** X8: after [remove_view], [get_snapshot] and [save_view] panic for the
    removed view, every other view is found as before, and the replay queue
    is left as it was. *)
Theorem remove_view_get_snapshot (k : nat) (r : Resources) :
  get_snapshot (remove_view k r) k = None /\
  save_view k (remove_view k r) = SavePanic /\
  (forall k', k' <> k -> get_snapshot (remove_view k r) k' = get_snapshot r k') /\
  screens (remove_view k r) = screens r /\ last_verified (remove_view k r) = last_verified r.
Proof.
  assert (G : get_snapshot (remove_view k r) k = None).
  { unfold get_snapshot, remove_view; simpl; rewrite btree_get_remove_same; reflexivity. }
  split; [exact G|]; split; [unfold save_view; rewrite G; reflexivity|].
  split; [|split; reflexivity].
  intros k' Ne; unfold get_snapshot, remove_view; simpl.
  rewrite btree_get_remove_other by assumption; reflexivity.
Qed.

Lemma wf_current (v : ViewResources) :
  wf v -> exists s, nth_error (ne_to_list (snapshots v)) (snapshot v) = Some s /\
                    id s = snapshot v.
Proof.
  intros [Hc Hid].
  destruct (nth_error (ne_to_list (snapshots v)) (snapshot v)) as [s|] eqn:Es.
  - exists s; split; [reflexivity|].
    pose proof (map_nth_error id (snapshot v) _ Es) as Hm; rewrite Hid, nth_error_seq in Hm.
    destruct (snapshot v <? ne_len (snapshots v)); inversion Hm; reflexivity.
  - apply nth_error_None in Es; rewrite <- ne_len_length in Es; lia.
Qed.

(** X9: for a view whose history was reached from [ViewResources::new] by
    pushes, undos and redos, [get_snapshot] does not panic: it returns the
    snapshot under the cursor, whose id is the cursor position, with the
    view's pixel cache. *)
Theorem get_snapshot_reachable (k : nat) (r : Resources) (p : list Z) (w h : Z)
  (ops : list HistoryOp) (v0 v : ViewResources) :
  ViewResources_new p w h = Some v0 -> run ops v0 = Some v ->
  btree_get k (data r) = Some v ->
  exists s, get_snapshot r k = Some (s, pixels v) /\
    nth_error (ne_to_list (snapshots v)) (snapshot v) = Some s /\ id s = snapshot v.
Proof.
  intros H0 H Hk; destruct (wf_current v (wf_reachable p w h ops v0 v H0 H)) as (s & Es & Hs).
  exists s; split; [|split; assumption].
  unfold get_snapshot, current_snapshot; rewrite Hk, ne_get_nth, Es; reflexivity.
Qed.

(** X10: [save_view] on such a view does not panic: it fails with an I/O
    error or returns, as the saved snapshot, the id of the snapshot under
    the cursor, which is the cursor position. *)
Theorem save_view_reports_cursor (k : nat) (r : Resources) (p : list Z) (w h : Z)
  (ops : list HistoryOp) (v0 v : ViewResources) :
  ViewResources_new p w h = Some v0 -> run ops v0 = Some v ->
  btree_get k (data r) = Some v ->
  save_view k r = SaveErr \/ exists n, save_view k r = SaveOk (snapshot v) n.
Proof.
  intros H0 H Hk; destruct (wf_current v (wf_reachable p w h ops v0 v H0 H)) as (s & Es & Hs).
  unfold save_view, get_snapshot, current_snapshot; rewrite Hk, ne_get_nth, Es.
  destruct (write_png _ _ _); [right; rewrite Hs; eauto | left; reflexivity].
Qed.

(** *** Pixel format conversion of [load_image] *)

(** Induction following [chunks4]: four elements at a time. *)
Lemma list4_ind (P : list Z -> Prop) :
  P [] -> (forall a, P [a]) -> (forall a b, P [a; b]) -> (forall a b c, P [a; b; c]) ->
  (forall a b c d t, P t -> P (a :: b :: c :: d :: t)) -> forall l, P l.
Proof.
  intros H0 H1 H2 H3 H4; fix IH 1; intros l.
  destruct l as [|a [|b [|c [|d t]]]];
    [exact H0 | apply H1 | apply H2 | apply H3 | apply H4, IH].
Qed.

(** The output of the conversion: each group of four [r, g, b, a] becomes
    [b, g, r, a]. *)
Fixpoint swap_rb (l : list Z) : list Z :=
  match l with
  | r :: g :: b :: a :: t => b :: g :: r :: a :: swap_rb t
  | _ => l
  end.

Lemma to_bgra_chunks4 (l acc : list Z) :
  to_bgra (chunks4 l) acc =
  if List.length l mod 4 =? 0 then Some (acc ++ swap_rb l)%list else None.
Proof.
  revert acc; induction l as [| a | a b | a b c | a b c d t IH] using list4_ind; intros acc.
  - simpl; rewrite app_nil_r; reflexivity.
  - reflexivity.
  - reflexivity.
  - reflexivity.
  - cbn [chunks4 to_bgra swap_rb]; rewrite IH.
    replace (List.length (a :: b :: c :: d :: t)) with (List.length t + 1 * 4) by (simpl; lia).
    rewrite Nat.Div0.mod_add, <- app_assoc; reflexivity.
Qed.

Lemma swap_rb_length (l : list Z) : List.length (swap_rb l) = List.length l.
Proof. induction l using list4_ind; simpl in *; lia. Qed.

Lemma swap_rb_involutive (l : list Z) : swap_rb (swap_rb l) = l.
Proof. induction l using list4_ind; simpl; congruence. Qed.

Lemma swap_rb_pixel (l : list Z) (k : nat) (r g b a : Z) :
  firstn 4 (skipn (4 * k) l) = [r; g; b; a] ->
  firstn 4 (skipn (4 * k) (swap_rb l)) = [b; g; r; a].
Proof.
  revert k; induction l as [| x | x y | x y z | x y z w t IH] using list4_ind; intros k;
    try (intros E; apply (f_equal (@List.length Z)) in E;
         rewrite length_firstn, length_skipn in E; cbn [List.length] in E; lia).
  destruct k as [|k].
  - simpl; intros E; inversion E; reflexivity.
  - replace (4 * S k) with (S (S (S (S (4 * k))))) by lia; simpl; apply IH.
Qed.

Lemma load_image_spec (buffer : list Z) (width height : Z) :
  load_image buffer width height =
  if List.length buffer mod 4 =? 0 then Some (width, height, swap_rb buffer) else None.
Proof.
  unfold load_image; rewrite to_bgra_chunks4.
  destruct (List.length buffer mod 4 =? 0); reflexivity.
Qed.

(** X3: [load_image] fails with its [InvalidData] error exactly when the
    decoded buffer is not a whole number of 4-byte pixels; on success it
    returns the given width and height and a pixel buffer of the same
    length. *)
Theorem load_image_buffer_size (buffer : list Z) (width height : Z) :
  (load_image buffer width height = None <-> List.length buffer mod 4 <> 0) /\
  (forall w h px, load_image buffer width height = Some (w, h, px) ->
     w = width /\ h = height /\ List.length px = List.length buffer).
Proof.
  rewrite load_image_spec; split.
  - destruct (Nat.eqb_spec (List.length buffer mod 4) 0); split; congruence.
  - destruct (List.length buffer mod 4 =? 0); [|discriminate].
    intros w h px E; inversion E; subst; rewrite swap_rb_length; auto.
Qed.

(** X4: on success, [load_image] turns every pixel [r, g, b, a] of the
    buffer into [b, g, r, a] at the same position, and converting its
    output again gives back the original buffer. *)
Theorem load_image_swaps_channels (buffer : list Z) (width height : Z) (px : list Z) :
  load_image buffer width height = Some (width, height, px) ->
  (forall k r g b a, firstn 4 (skipn (4 * k) buffer) = [r; g; b; a] ->
                     firstn 4 (skipn (4 * k) px) = [b; g; r; a]) /\
  load_image px width height = Some (width, height, buffer).
Proof.
  rewrite load_image_spec; destruct (List.length buffer mod 4 =? 0) eqn:E; [|discriminate].
  intros H; inversion H; subst px; clear H; split.
  - intros k r g b a; apply swap_rb_pixel.
  - rewrite load_image_spec, swap_rb_length, E, swap_rb_involutive; reflexivity.
Qed.

(** *** Frames of [save_view_gif] *)

Lemma rgba_image_length (pxs : list Bgra8) : List.length (rgba_image pxs) = 4 * List.length pxs.
Proof.
  unfold rgba_image; induction pxs as [|p pxs IH]; simpl; [reflexivity|].
  destruct (to_rgba p) as [[[r g] b] a]; simpl; rewrite IH; lia.
Qed.

Lemma split_rows_bound (image : list Z) (rb nf n i : nat) (fr out : list (list Z)) :
  split_rows image rb nf i n fr = Some out -> n = 0 \/ (i + n) * rb <= List.length image.
Proof.
  revert i fr; induction n as [|n IH]; intros i fr; [auto|]; simpl.
  unfold slice; destruct ((i * rb <=? i * rb + rb) && (i * rb + rb <=? List.length image)) eqn:E;
    [|discriminate].
  apply andb_true_iff in E as [_ E]; apply Nat.leb_le in E.
  destruct (extend_at fr _ _) as [fr'|]; [|discriminate].
  intros H; right; destruct (IH (S i) fr' H) as [->|B]; nia.
Qed.

Lemma split_rows_snoc (image : list Z) (rb nf n i : nat) (fr : list (list Z)) :
  split_rows image rb nf i (S n) fr =
  match split_rows image rb nf i n fr with
  | None => None
  | Some fr' =>
      match slice image ((i + n) * rb) ((i + n) * rb + rb) with
      | None => None
      | Some row => extend_at fr' ((i + n) mod nf) row
      end
  end.
Proof.
  revert i fr; induction n as [|n IH]; intros i fr.
  - simpl; rewrite Nat.add_0_r.
    destruct (slice _ _ _); [|reflexivity].
    destruct (extend_at _ _ _); reflexivity.
  - change (split_rows image rb nf i (S (S n)) fr) with
      (match slice image (i * rb) (i * rb + rb) with
       | None => None
       | Some row =>
           match extend_at fr (i mod nf) row with
           | None => None
           | Some fr' => split_rows image rb nf (S i) (S n) fr'
           end
       end).
    change (split_rows image rb nf i (S n) fr) with
      (match slice image (i * rb) (i * rb + rb) with
       | None => None
       | Some row =>
           match extend_at fr (i mod nf) row with
           | None => None
           | Some fr' => split_rows image rb nf (S i) n fr'
           end
       end).
    destruct (slice image (i * rb) (i * rb + rb)) as [row|]; [|reflexivity].
    destruct (extend_at fr (i mod nf) row) as [fr'|]; [|reflexivity].
    rewrite IH; replace (S i + n) with (i + S n) by lia; reflexivity.
Qed.

Lemma extend_at_seq (F : nat -> list Z) (s m k : nat) (row : list Z) :
  k < m ->
  extend_at (map F (seq s m)) k row =
  Some (map (fun j => if j =? s + k then F j ++ row else F j) (seq s m))%list.
Proof.
  revert s k; induction m as [|m IH]; intros s k Hk; [lia|].
  cbn [seq map]; destruct k as [|k].
  - simpl; rewrite Nat.add_0_r, Nat.eqb_refl; f_equal; f_equal.
    apply map_ext_in; intros j Hj; apply in_seq in Hj.
    destruct (Nat.eqb_spec j s); [lia | reflexivity].
  - simpl; rewrite IH by lia; simpl.
    destruct (Nat.eqb_spec s (s + S k)); [lia|].
    replace (S (s + k)) with (s + S k) by lia; reflexivity.
Qed.

(** Frame [k] after [n] rounds: the rows [j < n] with [j mod nf = k]. *)
Definition frame_rows (image : list Z) (rb nf n k : nat) : list Z :=
  List.concat (map (fun j => firstn rb (skipn (j * rb) image))
              (filter (fun j => j mod nf =? k) (seq 0 n))).

Lemma split_rows_spec (image : list Z) (rb nf n : nat) :
  0 < nf -> n * rb <= List.length image ->
  split_rows image rb nf 0 n (repeat [] nf) = Some (map (frame_rows image rb nf n) (seq 0 nf)).
Proof.
  intros Hnf; induction n as [|n IH]; intros B.
  - simpl; f_equal; unfold frame_rows; simpl.
    rewrite <- (length_seq nf 0) at 1; generalize (seq 0 nf); intros l.
    induction l as [|x l IHl]; simpl; congruence.
  - rewrite split_rows_snoc, IH by nia; simpl Nat.add.
    unfold slice; replace ((n * rb <=? n * rb + rb) && (n * rb + rb <=? List.length image))
      with true by (symmetry; apply andb_true_iff; split; apply Nat.leb_le; nia).
    rewrite extend_at_seq by (apply Nat.mod_upper_bound; lia).
    f_equal; apply map_ext; intros j; unfold frame_rows.
    rewrite seq_S, filter_app, map_app, concat_app; simpl.
    rewrite (Nat.eqb_sym j (n mod nf)); destruct (n mod nf =? j); simpl.
    + replace (n * rb + rb - n * rb) with rb by lia; rewrite app_nil_r; reflexivity.
    + rewrite app_nil_r; reflexivity.
Qed.

Lemma filter_mod_block (nf k a : nat) :
  k < nf -> forall m t, t + m = nf ->
  filter (fun j => j mod nf =? k) (seq (a * nf + t) m) =
  if (t <=? k) && (k <? t + m) then [a * nf + k] else [].
Proof.
  intros Hk m; induction m as [|m IH]; intros t Ht.
  - simpl; destruct ((t <=? k) && (k <? t + 0)) eqn:E; [|reflexivity].
    apply andb_true_iff in E as [E1 E2]; apply Nat.leb_le in E1; apply Nat.ltb_lt in E2; lia.
  - cbn [seq filter].
    replace ((a * nf + t) mod nf) with t
      by (rewrite Nat.add_comm, Nat.Div0.mod_add, Nat.mod_small; lia).
    replace (S (a * nf + t)) with (a * nf + S t) by lia.
    rewrite IH by lia.
    destruct (Nat.eqb_spec t k) as [->|Ne].
    + rewrite ?Nat.eqb_refl, Nat.leb_refl.
      replace (S k <=? k) with false by (symmetry; apply Nat.leb_gt; lia).
      replace (k <? k + S m) with true by (symmetry; apply Nat.ltb_lt; lia); reflexivity.
    + destruct (Nat.leb_spec t k), (Nat.leb_spec (S t) k), (Nat.ltb_spec k (t + S m)),
        (Nat.ltb_spec k (S t + m)); simpl; try reflexivity; lia.
Qed.

Lemma filter_mod_strip (nf k fh : nat) :
  k < nf ->
  filter (fun j => j mod nf =? k) (seq 0 (fh * nf)) = map (fun r => r * nf + k) (seq 0 fh).
Proof.
  intros Hk; induction fh as [|fh IH]; [reflexivity|].
  replace (S fh * nf) with (fh * nf + nf) by lia.
  rewrite seq_app, filter_app, IH, seq_S, map_app; simpl Nat.add; f_equal.
  pose proof (filter_mod_block nf k fh Hk nf 0 ltac:(lia)) as Hb.
  rewrite Nat.add_0_r in Hb; rewrite Hb.
  replace ((0 <=? k) && (k <? 0 + nf)) with true
    by (symmetry; apply andb_true_iff; split; [apply Nat.leb_le | apply Nat.ltb_lt]; lia).
  reflexivity.
Qed.

Lemma gif_strip_frames_spec (s : Snapshot) (pxs : list Bgra8) :
  0 < nframes s ->
  Z.to_nat (fh s) * nframes s * (Z.to_nat (fw s) * 4) <= 4 * List.length pxs ->
  gif_strip_frames s pxs =
  Some (map (fun k => List.concat (map (fun r => firstn (Z.to_nat (fw s) * 4)
                          (skipn ((r * nframes s + k) * (Z.to_nat (fw s) * 4)) (rgba_image pxs)))
                          (seq 0 (Z.to_nat (fh s)))))
            (seq 0 (nframes s)),
        Z.to_nat (fw s) * Z.to_nat (fh s) * 4 * nframes s).
Proof.
  intros Hnf B; unfold gif_strip_frames.
  rewrite split_rows_spec by (rewrite ?rgba_image_length; nia).
  f_equal; f_equal; apply map_ext_in; intros k Hk; apply in_seq in Hk.
  unfold frame_rows; rewrite filter_mod_strip by lia; rewrite map_map; reflexivity.
Qed.



(** X6: when the frame split of [save_view_gif] succeeds, frame [k] is made
    of the [k]-th block of [fw] pixels of each of the [fh] rows of the
    animation strip, top row first: the bytes at
    [((r * nframes + k) * fw * 4) .. + fw * 4] of the RGBA image for
    [r = 0 .. fh - 1]. *)
Theorem gif_strip_frames_content (s : Snapshot) (pxs : list Bgra8)
  (frames : list (list Z)) (n : nat) :
  gif_strip_frames s pxs = Some (frames, n) ->
  forall k, k < nframes s ->
  nth_error frames k =
  Some (List.concat (map (fun r => firstn (Z.to_nat (fw s) * 4)
                                (skipn ((r * nframes s + k) * (Z.to_nat (fw s) * 4))
                                       (rgba_image pxs)))
                    (seq 0 (Z.to_nat (fh s))))).
Proof.
  intros E k Hk.
  assert (B : Z.to_nat (fh s) * nframes s * (Z.to_nat (fw s) * 4) <= 4 * List.length pxs).
  { revert E; unfold gif_strip_frames.
    destruct (split_rows _ _ _ _ _ _) as [out|] eqn:E; [|discriminate]; intros _.
    apply split_rows_bound in E as [E|E]; rewrite ?rgba_image_length in E; nia. }
  rewrite gif_strip_frames_spec in E by lia; inversion E; subst frames.
  rewrite nth_error_map, nth_error_seq.
  destruct (Nat.ltb_spec k (nframes s)); [|lia]; reflexivity.
Qed.

End Resources.

(** ** Hash text parsing *)

(** C2: [Hash::from_str] does not fail with an error on every malformed
    input: a well-formed hex string of the wrong length (["0011"], or the
    empty string) reaches [array.copy_from_slice] with a slice that is not
    4 bytes long, which panics.  An odd length is an [Err] echoing the input,
    and a non-hex character an [Err] naming the byte's decimal value. *)
Theorem from_str_wrong_length_panics :
  from_str "0011" = Panic /\
  from_str "" = Panic /\
  from_str "00112233" = Ok (mkHash 0 17 34 51) /\
  from_str "0a1" = Err ("invalid hex string: " ++ str_debug "0a1") /\
  from_str "0g" = Err "invalid hex character 103".
Proof. repeat split; vm_compute; reflexivity. Qed.

(** ** Hash text round trip *)

(** Whether the two characters [fmt_02x] writes for [b] parse back to [b]
    in the loop of [from_str]. *)
Definition byte_roundtrips (b : Z) : bool :=
  match str_bytes (fmt_02x b) with
  | [l; r] =>
      match val l, val r with
      | inl x, inl y => Z.eqb (Z.lor (Z.shiftl x 4 mod 256) y) b
      | _, _ => false
      end
  | _ => false
  end.

Lemma byte_roundtrips_all :
  forallb (fun n => byte_roundtrips (Z.of_nat n)) (seq 0 256) = true.
Proof. vm_compute; reflexivity. Qed.

Lemma fmt_02x_pair (b : Z) :
  (0 <= b < 256)%Z ->
  exists l r, str_bytes (fmt_02x b) = [l; r] /\
    forall input rest acc,
      hex_pairs input ([l; r] :: rest) acc = hex_pairs input rest (acc ++ [b]).
Proof.
  intros Hb; pose proof byte_roundtrips_all as A; rewrite forallb_forall in A.
  specialize (A (Z.to_nat b) ltac:(apply in_seq; lia)); rewrite Z2Nat.id in A by lia.
  unfold byte_roundtrips in A.
  destruct (str_bytes (fmt_02x b)) as [|l [|r [|]]]; try discriminate.
  exists l, r; split; [reflexivity|].
  destruct (val l) as [x|] eqn:El; [|discriminate].
  destruct (val r) as [y|] eqn:Er; [|discriminate].
  apply Z.eqb_eq in A; intros input rest acc; cbn [hex_pairs]; rewrite El, Er, A; reflexivity.
Qed.

Lemma str_bytes_app (s1 s2 : string) :
  str_bytes (s1 ++ s2) = (str_bytes s1 ++ str_bytes s2)%list.
Proof. induction s1 as [|a s1 IH]; simpl; [reflexivity | rewrite IH; reflexivity]. Qed.

(** X1: a hash whose four bytes are in [0, 256) (every [u8]) is written by
    [Display] as eight lower-case hex digits that [from_str] parses back
    to the same hash. *)
Theorem hash_display_roundtrip (h : Hash) :
  (0 <= h0 h < 256)%Z -> (0 <= h1 h < 256)%Z -> (0 <= h2 h < 256)%Z -> (0 <= h3 h < 256)%Z ->
  from_str (hash_to_string h) = Ok h.
Proof.
  destruct h as [a b c d]; simpl; intros Ha Hb Hc Hd.
  destruct (fmt_02x_pair a Ha) as (la & ra & Ea & Pa).
  destruct (fmt_02x_pair b Hb) as (lb & rb & Eb & Pb).
  destruct (fmt_02x_pair c Hc) as (lc & rc & Ec & Pc).
  destruct (fmt_02x_pair d Hd) as (ld & rd & Ed & Pd).
  unfold from_str, hash_to_string; simpl h0; simpl h1; simpl h2; simpl h3.
  rewrite !str_bytes_app, Ea, Eb, Ec, Ed; simpl chunks2.
  rewrite Pa, Pb, Pc, Pd; reflexivity.
Qed.

(** * [src/src/view.rs]: file status of a view and the view manager *)

Module view.

(** [FileStatus]; a [PathBuf] is represented by its text. *)
Inductive FileStatus :=
| NoFile
| New (p : string)
| Saved (p : string)
| Modified (p : string).

Inductive ViewState := Okay | Dirty | Damaged.

(** The fields of [View] that its file-status and snapshot methods read and
    write.  The [f32] geometry ([offset], [zoom]), the [flip_x], [flip_y]
    and [hover] flags, [ops] and the rgx [Animation] are left out. *)
Record View := mkView {
  id : nat;                        (* ViewId(u16) *)
  fw : Z;                          (* u32 *)
  fh : Z;
  file_status : FileStatus;
  state : ViewState;
  saved_snapshot : option nat      (* Option<SnapshotId> *)
}.

(** [View::new]. *)
Definition View_new (vid : nat) (fs : FileStatus) (fw fh : Z) : View :=
  let saved_snapshot := match fs with Saved _ => Some 0 | _ => None end in
  mkView vid fw fh fs Okay saved_snapshot.

(** [View::file_name]. *)
Definition file_name (v : View) : option string :=
  match file_status v with
  | New f => Some f
  | Modified f => Some f
  | Saved f => Some f
  | NoFile => None
  end.

(** [View::saved] (private). *)
Definition saved (sid : nat) (path : string) (v : View) : View :=
  mkView (id v) (fw v) (fh v) (Saved path) (state v) (Some sid).

(** [View::touch]. *)
Definition touch (v : View) : View :=
  let fs := match file_status v with Saved f => Modified f | fs => fs end in
  mkView (id v) (fw v) (fh v) fs Dirty (saved_snapshot v).

(** [View::is_snapshot_saved]. *)
Definition is_snapshot_saved (v : View) (sid : nat) : bool :=
  match saved_snapshot v with
  | Some s => s =? sid
  | None => false
  end.

Section ViewModel.

(** [PartialEq for PathBuf], which compares paths component by component. *)
Variable path_eqb : string -> string -> bool.

(** [View::save_as]. *)
Definition save_as (sid : nat) (path : string) (v : View) : View :=
  match file_status v with
  | Modified curr_path | New curr_path =>
      if path_eqb curr_path path then saved sid path v else v
  | NoFile => saved sid path v
  | Saved _ => v
  end.

(** [ViewManager::MAX_LRU], i.e. [Session::MAX_VIEWS] of [session.rs]. *)
Variable MAX_LRU : nat.

(** [ViewManager]; [lru] is the [VecDeque], front first. *)
Record ViewManager := mkViewManager {
  active_id : nat;
  views : list (nat * View);       (* BTreeMap<ViewId, View> *)
  next_id : nat;
  lru : list nat
}.

(** [ViewManager::new]. *)
Definition ViewManager_new : ViewManager := mkViewManager 0 [] 1 [].

(** [ViewManager::gen_id]; [id + 1] on [u16] wraps. *)
Definition gen_id (m : ViewManager) : nat * ViewManager :=
  (next_id m, mkViewManager (active_id m) (views m) ((next_id m + 1) mod 2^16) (lru m)).

(** [ViewManager::add]. *)
Definition add (fs : FileStatus) (w h : Z) (m : ViewManager) : nat * ViewManager :=
  let (vid, m1) := gen_id m in
  (vid, mkViewManager (active_id m1) (btree_insert vid (View_new vid fs w h) (views m1))
                      (next_id m1) (lru m1)).

(** [ViewManager::last]. *)
Definition last (m : ViewManager) : option nat := hd_error (lru m).

(** [ViewManager::active]. *)
Definition active (m : ViewManager) : option View := btree_get (active_id m) (views m).

(** [ViewManager::activate]; its [debug_assert!] is not part of release
    builds. *)
Definition activate (vid : nat) (m : ViewManager) : ViewManager :=
  if active_id m =? vid then m
  else mkViewManager vid (views m) (next_id m) (firstn MAX_LRU (vid :: lru m)).

(** [ViewManager::remove]; [None] is the panic of [assert!(!self.lru.is_empty())]. *)
Definition remove (vid : nat) (m : ViewManager) : option ViewManager :=
  match lru m with
  | [] => None
  | _ :: _ =>
      let m1 := mkViewManager (active_id m) (btree_remove vid (views m)) (next_id m)
                  (filter (fun v => negb (v =? vid)) (lru m)) in
      match last m1 with
      | Some v => Some (activate v m1)
      | None => Some (mkViewManager 0 (views m1) (next_id m1) (lru m1))
      end
  end.

(** The calls a session makes on its views: [add], [remove], [activate],
    and a change of a view through [get_mut]. *)
Inductive ManagerOp :=
| Add (fs : FileStatus) (w h : Z)
| Remove (vid : nat)
| Activate (vid : nat)
| Modify (vid : nat) (f : View -> View).

Definition vm_step (op : ManagerOp) (m : ViewManager) : option ViewManager :=
  match op with
  | Add fs w h => Some (snd (add fs w h m))
  | Remove vid => remove vid m
  | Activate vid => Some (activate vid m)
  | Modify vid f =>
      match btree_get vid (views m) with
      | Some v => Some (mkViewManager (active_id m) (btree_insert vid (f v) (views m))
                                      (next_id m) (lru m))
      | None => Some m
      end
  end.

Fixpoint vm_run (ops : list ManagerOp) (m : ViewManager) : option ViewManager :=
  match ops with
  | [] => Some m
  | op :: rest =>
      match vm_step op m with
      | None => None
      | Some m' => vm_run rest m'
      end
  end.

Fixpoint count_adds (ops : list ManagerOp) : nat :=
  match ops with
  | [] => 0
  | Add _ _ _ :: rest => S (count_adds rest)
  | _ :: rest => count_adds rest
  end.

(** ** Properties *)


(** X13: [touch] marks the view dirty and never leaves it [Saved]: a saved
    view becomes modified under the same path, any other status is kept; the
    file name and the saved snapshot are unchanged, so saving the touched
    view under its own path marks it saved again at the new snapshot. *)
Theorem touch_status (v : View) :
  state (touch v) = Dirty /\
  (forall f, file_status (touch v) <> Saved f) /\
  file_name (touch v) = file_name v /\
  (forall sid, is_snapshot_saved (touch v) sid = is_snapshot_saved v sid) /\
  (forall f sid, file_name v = Some f -> path_eqb f f = true ->
     file_status (save_as sid f (touch v)) = Saved f /\
     is_snapshot_saved (save_as sid f (touch v)) sid = true).
Proof.
  unfold touch, file_name, is_snapshot_saved, save_as;
    destruct (file_status v) as [|f|f|f]; simpl;
    (split; [reflexivity|]); (split; [intros g; discriminate|]);
    (split; [reflexivity|]); (split; [reflexivity|]);
    intros g sid E P; inversion E; subst g; rewrite ?P; simpl; rewrite ?Nat.eqb_refl; auto.
Qed.

Lemma vm_run_cons (op : ManagerOp) (ops : list ManagerOp) (m m' : ViewManager) :
  vm_run (op :: ops) m = Some m' -> exists m1, vm_step op m = Some m1 /\ vm_run ops m1 = Some m'.
Proof. simpl; destruct (vm_step op m) as [m1|]; [eauto | discriminate]. Qed.

(** The key invariant: [next_id] is one more than the number of views
    added, and every view has an id from 1 below it. *)
Definition ids_below (m : ViewManager) (n : nat) : Prop :=
  next_id m = S n /\ forall k v, btree_get k (views m) = Some v -> 1 <= k <= n.

Lemma btree_get_insert {A} (k k' : nat) (v : A) (m : list (nat * A)) :
  btree_get k' (btree_insert k v m) = if k' =? k then Some v else btree_get k' m.
Proof.
  destruct (Nat.eqb_spec k' k) as [->|Ne];
    [apply btree_get_insert_same | apply btree_get_insert_other; assumption].
Qed.

Lemma btree_get_remove {A} (k k' : nat) (m : list (nat * A)) :
  btree_get k' (btree_remove k m) = if k' =? k then None else btree_get k' m.
Proof.
  destruct (Nat.eqb_spec k' k) as [->|Ne];
    [apply btree_get_remove_same | apply btree_get_remove_other; assumption].
Qed.

Lemma activate_views (vid : nat) (m : ViewManager) :
  views (activate vid m) = views m /\ next_id (activate vid m) = next_id m.
Proof. unfold activate; destruct (active_id m =? vid); auto. Qed.

Lemma remove_views (vid : nat) (m m' : ViewManager) :
  remove vid m = Some m' ->
  views m' = btree_remove vid (views m) /\ next_id m' = next_id m.
Proof.
  unfold remove; destruct (lru m) as [|x l]; [discriminate|].
  destruct (last _) as [v|]; intros E; injection E as <-;
    [rewrite (proj1 (activate_views _ _)), (proj2 (activate_views _ _))|]; simpl; auto.
Qed.

Lemma some_eq {A} (a b : A) : Some a = Some b -> b = a.
Proof. congruence. Qed.

Lemma ids_below_step (op : ManagerOp) (m m' : ViewManager) (n : nat) :
  ids_below m n -> vm_step op m = Some m' ->
  match op with
  | Add _ _ _ => S n < 2^16 - 1 -> ids_below m' (S n)
  | _ => ids_below m' n
  end.
Proof.
  intros [Hn Hk]; destruct op as [fs w h|vid|vid|vid f]; cbn [vm_step].
  - intros E Hlt; apply some_eq in E; subst m'; unfold ids_below, add, gen_id; cbn [fst snd views next_id]; split.
    + rewrite Hn, Nat.mod_small by lia; lia.
    + intros k v; rewrite btree_get_insert, Hn.
      destruct (Nat.eqb_spec k (S n)); [lia|]; intros G; apply Hk in G; lia.
  - intros E; apply remove_views in E as [Ev En]; split; [rewrite En; assumption|].
    intros k v; rewrite Ev, btree_get_remove; destruct (k =? vid); [discriminate | apply Hk].
  - intros E; inversion E; subst m'; destruct (activate_views vid m) as [Ev En].
    split; [rewrite En; assumption | rewrite Ev; assumption].
  - destruct (btree_get vid (views m)) as [v0|] eqn:G; intros E; inversion E; subst m';
      [|split; assumption].
    split; [assumption|]; simpl; intros k v; rewrite btree_get_insert.
    destruct (Nat.eqb_spec k vid) as [->|]; [intros _; apply (Hk vid v0 G) | apply Hk].
Qed.

Lemma ids_below_run (ops : list ManagerOp) (m m' : ViewManager) (n : nat) :
  ids_below m n -> n + count_adds ops < 2^16 - 1 -> vm_run ops m = Some m' ->
  ids_below m' (n + count_adds ops).
Proof.
  revert m n; induction ops as [|op ops IH]; intros m n Hm Hc E.
  - cbn [vm_run count_adds] in E |- *; apply some_eq in E; subst m'; rewrite Nat.add_0_r; assumption.
  - apply vm_run_cons in E as (m1 & S1 & R).
    pose proof (ids_below_step op m m1 n Hm S1) as H1.
    destruct op as [fs w h|vid|vid|vid f]; simpl count_adds in *.
    + replace (n + S (count_adds ops)) with (S n + count_adds ops) by lia.
      apply (IH m1); [apply H1; lia | lia | assumption].
    + apply (IH m1); assumption.
    + apply (IH m1); assumption.
    + apply (IH m1); assumption.
Qed.

(** X14: while fewer than 65535 views have been added since
    [ViewManager::new], [add] hands out an id that is at least 1, larger
    than the id of every view present (so ids come in increasing order and
    no present view is overwritten), and stores the new view under it,
    leaving the other views unchanged. *)
Theorem add_fresh_id (ops : list ManagerOp) (m : ViewManager) (fs : FileStatus) (w h : Z) :
  count_adds ops < 2^16 - 1 -> vm_run ops ViewManager_new = Some m ->
  1 <= fst (add fs w h m) /\
  (forall k v, btree_get k (views m) = Some v -> k < fst (add fs w h m)) /\
  btree_get (fst (add fs w h m)) (views (snd (add fs w h m))) =
    Some (View_new (fst (add fs w h m)) fs w h) /\
  (forall k, k <> fst (add fs w h m) ->
     btree_get k (views (snd (add fs w h m))) = btree_get k (views m)).
Proof.
  intros Hc E.
  assert (H0 : ids_below ViewManager_new 0) by (split; [reflexivity | intros k v G; discriminate]).
  destruct (ids_below_run ops _ m 0 H0 ltac:(lia) E) as [Hn Hk]; simpl in Hn, Hk.
  unfold add, gen_id; simpl; rewrite Hn; split; [lia|]; split; [|split].
  - intros k v G; apply Hk in G; lia.
  - apply btree_get_insert_same.
  - intros k Ne; apply btree_get_insert_other; assumption.
Qed.

(** X18: no view ever has the default id 0 (while fewer than 65535 views
    have been added), so whenever the active id is [ViewId::default()], as
    after removing the last view of the LRU list, [active()] is [None]. *)
Theorem default_id_not_a_view (ops : list ManagerOp) (m : ViewManager) :
  count_adds ops < 2^16 - 1 -> vm_run ops ViewManager_new = Some m ->
  btree_get 0 (views m) = None /\ (active_id m = 0 -> active m = None).
Proof.
  intros Hc E.
  assert (H0 : ids_below ViewManager_new 0) by (split; [reflexivity | intros k v G; discriminate]).
  destruct (ids_below_run ops _ m 0 H0 ltac:(lia) E) as [_ Hk].
  assert (G0 : btree_get 0 (views m) = None).
  { destruct (btree_get 0 (views m)) as [v|] eqn:G; [apply Hk in G; lia | reflexivity]. }
  split; [exact G0|]; intros A; unfold active; rewrite A; exact G0.
Qed.

(** The LRU invariant: at most [MAX_LRU] entries, and the front, if any, is
    the active view. *)
Definition lru_ok (m : ViewManager) : Prop :=
  List.length (lru m) <= MAX_LRU /\ (lru m = [] \/ last m = Some (active_id m)).

Lemma activate_lru_ok (vid : nat) (m : ViewManager) :
  lru_ok m -> lru_ok (activate vid m).
Proof.
  unfold activate; destruct (Nat.eqb_spec (active_id m) vid); [auto|].
  intros _; unfold lru_ok, last; simpl; split; [rewrite length_firstn; lia|].
  destruct MAX_LRU; simpl; auto.
Qed.

Lemma lru_ok_step (op : ManagerOp) (m m' : ViewManager) :
  lru_ok m -> vm_step op m = Some m' -> lru_ok m'.
Proof.
  intros Hm; destruct op as [fs w h|vid|vid|vid f]; cbn [vm_step].
  - intros E; apply some_eq in E; subst m'; exact Hm.
  - unfold remove; destruct (lru m) as [|x l] eqn:L; [discriminate|].
    set (fl := filter (fun v => negb (v =? vid)) (x :: l)).
    assert (Hle : List.length fl <= MAX_LRU).
    { destruct Hm as [Hl _]; rewrite L in Hl.
      pose proof (filter_length_le (fun v0 => negb (v0 =? vid)) (x :: l)); unfold fl; lia. }
    unfold last at 1; simpl; fold fl.
    destruct fl as [|v r] eqn:F; intros E; apply some_eq in E; subst m'.
    + unfold lru_ok; simpl; split; [lia | auto].
    + unfold activate; cbn [active_id]; destruct (Nat.eqb_spec (active_id m) v).
      * unfold lru_ok, last; simpl; split; [exact Hle | right; congruence].
      * unfold lru_ok, last; simpl; split; [rewrite length_firstn; lia | destruct MAX_LRU; simpl; auto].
  - intros E; inversion E; subst; apply activate_lru_ok; exact Hm.
  - destruct (btree_get vid (views m)); intros E; inversion E; subst; exact Hm.
Qed.

(** X15: in every state reached from [ViewManager::new], the LRU list has at
    most [MAX_LRU] entries and, when it is not empty, [last()] (its front) is
    the active view. *)
Theorem lru_front_is_active (ops : list ManagerOp) (m : ViewManager) :
  vm_run ops ViewManager_new = Some m ->
  List.length (lru m) <= MAX_LRU /\ (lru m = [] \/ last m = Some (active_id m)).
Proof.
  assert (H0 : lru_ok ViewManager_new) by (split; simpl; [lia | auto]).
  revert H0; generalize ViewManager_new; intros m0 H0 E; revert m0 H0 E.
  induction ops as [|op ops IH]; intros m0 H0 E.
  - simpl in E; inversion E; subst; exact H0.
  - apply vm_run_cons in E as (m1 & S1 & R); apply (IH m1); [apply (lru_ok_step op m0) |]; assumption.
Qed.



(** X17: [remove] activates the front of the remaining LRU list with
    [activate], which pushes that id to the front again when it was not
    already active.  So removing the active view puts the next view of the
    list twice at its front (cut to [MAX_LRU] entries). *)
Theorem remove_active_duplicates_front (m : ViewManager) (vid v : nat) (rest : list nat) :
  active_id m = vid -> filter (fun x => negb (x =? vid)) (lru m) = v :: rest ->
  exists m', remove vid m = Some m' /\ active_id m' = v /\
    lru m' = firstn MAX_LRU (v :: v :: rest).
Proof.
  intros A F; unfold remove.
  destruct (lru m) as [|x l] eqn:L; [discriminate|].
  assert (Hv : v <> vid).
  { intros ->; assert (Hin : In vid (filter (fun x => negb (x =? vid)) (x :: l))) by (rewrite F; left; reflexivity).
    rewrite filter_In, Nat.eqb_refl in Hin; destruct Hin as [_ Hin]; discriminate. }
  unfold last at 1; cbn [lru]; rewrite F; unfold hd_error.
  unfold activate; cbn [active_id]; rewrite A; destruct (Nat.eqb_spec vid v) as [E|E]; [congruence|].
  eexists; split; [reflexivity|]; cbn [active_id lru]; split; reflexivity.
Qed.

End ViewModel.

End view.


(** ** Concrete instances *)

(** A codec that stores the bytes as they are, a pixel cache of bytes, and
    a toy hash keeping the first byte of the frame. *)
Definition plain_codec (b : list Z) : option (list Z) := Some b.
Definition byte_pixels (b : list Z) : list Z := b.
Definition first_byte_hash (d : list Z) : Hash := mkHash (hd 0%Z d) 0 0 0.

Definition edit_session : list HistoryOp :=
  [Push [1%Z] 1 1 1; Push [2%Z] 1 1 1; Push [3%Z] 1 1 1; Undo].

Example edit_session_truncates :
  option_map (fun v => map spixels (ne_to_list (snapshots Z v)))
    (match ViewResources_new Z byte_pixels plain_codec [0%Z] 1 1 with
     | Some v0 => match run Z byte_pixels plain_codec plain_codec
                          (edit_session ++ [Push [4%Z] 1 1 1]) v0 with
                  | Some v => Some v | None => None end
     | None => None end)
  = Some [[0%Z]; [1%Z]; [2%Z]; [4%Z]].
Proof. vm_compute; reflexivity. Qed.

Example edit_session_reuses_id :
  option_map (fun v => map id (ne_to_list (snapshots Z v)))
    (match ViewResources_new Z byte_pixels plain_codec [0%Z] 1 1 with
     | Some v0 => run Z byte_pixels plain_codec plain_codec
                      (edit_session ++ [Push [4%Z] 1 1 1]) v0
     | None => None end)
  = Some [0; 1; 2; 3].
Proof. vm_compute; reflexivity. Qed.

Example replay_scenario :
  snd (verify_all Z first_byte_hash [[1%Z]; [1%Z]; [9%Z]; [3%Z]; [5%Z]]
         (mkResources Z [] [first_byte_hash [1%Z]; first_byte_hash [2%Z];
                             first_byte_hash [3%Z]] None))
  = [Okay (mkHash 1 0 0 0); Stale (mkHash 1 0 0 0);
     Failure (mkHash 9 0 0 0) (mkHash 2 0 0 0); Okay (mkHash 3 0 0 0); EOF].
Proof. vm_compute; reflexivity. Qed.

(** ** Counterexamples *)

(** C1, as stated: replaying [A; A; X; C] against the queue
    [hash A; hash B; hash C] does not give Okay, Stale, Failure (hash X)
    (hash B), Okay for every [X <> B], whatever the hash function: with
    [X = A] the third frame has the hash just verified and is Stale. *)
Lemma verify_screen_replay_counterexample :
  ~ (exists (Px : Type) (hash : list Z -> Hash),
       forall A B C X : list Z, X <> B ->
         snd (verify_all Px hash [A; A; X; C] (mkResources Px [] [hash A; hash B; hash C] None))
         = [Okay (hash A); Stale (hash A); Failure (hash X) (hash B); Okay (hash C)]).
Proof.
  intros (Px & hsh & H).
  specialize (H [0%Z] [1%Z] [2%Z] [0%Z] ltac:(discriminate)).
  repeat first [ rewrite hash_eqb_refl in H
               | progress cbv [verify_all verify_screen opt_hash_eqb snd fst
                               data screens last_verified] in H ].
  destruct (hash_eqb (hsh [2%Z]) (hsh [0%Z])); simpl in H; congruence.
Qed.

(** C4, as stated: after pushing [p1], [p2], [p3], one undo and a push of
    [p4], a fresh view's history is not exactly the snapshots of [p1], [p2],
    [p4]: the initial snapshot of [ViewResources::new] stays in front. *)
Lemma push_after_undo_counterexample :
  option_map (fun v => (ne_len (snapshots Z v), map spixels (ne_to_list (snapshots Z v))))
    (match ViewResources_new Z byte_pixels plain_codec [0%Z] 1 1 with
     | Some v0 => run Z byte_pixels plain_codec plain_codec
                      (edit_session ++ [Push [4%Z] 1 1 1]) v0
     | None => None end)
  <> Some (3, [[1%Z]; [2%Z]; [4%Z]]).
Proof. vm_compute; discriminate. Qed.

(** ** Witnesses: the hypotheses of the history theorems hold on a session *)

Lemma history_cursor_in_range_witness :
  exists v0 v,
    ViewResources_new Z byte_pixels plain_codec [0%Z] 1 1 = Some v0 /\
    run Z byte_pixels plain_codec plain_codec edit_session v0 = Some v /\
    1 <= ne_len (snapshots Z v) /\ 0 <= snapshot Z v < ne_len (snapshots Z v).
Proof.
  eexists; eexists; split; [reflexivity|]; split; [reflexivity|].
  eapply (history_cursor_in_range Z byte_pixels plain_codec plain_codec [0%Z] 1 1 edit_session);
    reflexivity.
Defined.

Lemma snapshot_id_is_position_witness :
  exists v0 v,
    ViewResources_new Z byte_pixels plain_codec [0%Z] 1 1 = Some v0 /\
    run Z byte_pixels plain_codec plain_codec edit_session v0 = Some v /\
    (forall i s, nth_error (ne_to_list (snapshots Z v)) i = Some s -> id s = i) /\
    (forall q fw' fh' n v', snapshot Z v + 1 < ne_len (snapshots Z v) ->
       push_snapshot Z byte_pixels plain_codec q fw' fh' n v = Some v' ->
       exists s_old s_new,
         nth_error (ne_to_list (snapshots Z v)) (snapshot Z v + 1) = Some s_old /\
         nth_error (ne_to_list (snapshots Z v')) (snapshot Z v + 1) = Some s_new /\
         id s_new = id s_old /\
         ne_len (snapshots Z v') = snapshot Z v + 2).
Proof.
  eexists; eexists; split; [reflexivity|]; split; [reflexivity|].
  eapply (snapshot_id_is_position Z byte_pixels plain_codec plain_codec [0%Z] 1 1 edit_session);
    reflexivity.
Defined.

Lemma push_snapshot_ids_dense_witness :
  exists v0 v v',
    ViewResources_new Z byte_pixels plain_codec [0%Z] 1 1 = Some v0 /\
    run Z byte_pixels plain_codec plain_codec edit_session v0 = Some v /\
    push_snapshot Z byte_pixels plain_codec [4%Z] 1 1 1 v = Some v' /\
    map id (ne_to_list (snapshots Z v')) = seq 0 (ne_len (snapshots Z v')) /\
    (exists s, ne_to_list (snapshots Z v') = ne_to_list (snapshots Z (clear_forward Z v)) ++ [s] /\
               id s = S (list_max (map id (ne_to_list (snapshots Z (clear_forward Z v)))))).
Proof.
  eexists; eexists; eexists; split; [reflexivity|]; split; [reflexivity|]; split; [reflexivity|].
  eapply (push_snapshot_ids_dense Z byte_pixels plain_codec plain_codec [0%Z] 1 1 edit_session);
    reflexivity.
Defined.

(** ** Witnesses: the hypotheses of the code properties hold on concrete inputs *)

Definition gray (b : Z) : Z * Z * Z * Z := (b, b, b, b).
Definition png_ok (w h : Z) (img : list Z) : bool := true.
Definition gif_snapshot : Snapshot := mkSnapshot 0 1 2 3 6 [].
Definition gif_pixels : list Z := [1%Z; 2%Z; 3%Z; 4%Z; 5%Z; 6%Z].
Definition view_session : list view.ManagerOp :=
  [view.Add view.NoFile 1 1; view.Add (view.Saved "a.png") 2 2;
   view.Activate 1; view.Activate 2; view.Remove 2; view.Add view.NoFile 3 3].
Definition close_session : list view.ManagerOp :=
  [view.Add view.NoFile 1 1; view.Activate 1; view.Remove 1].
Definition two_views : view.ViewManager := view.mkViewManager 2 [] 3 [2; 1].

Lemma hash_display_roundtrip_witness :
  (0 <= 0 < 256)%Z /\ (0 <= 10 < 256)%Z /\ (0 <= 171 < 256)%Z /\ (0 <= 255 < 256)%Z /\
  from_str (hash_to_string (mkHash 0 10 171 255)) = Ok (mkHash 0 10 171 255).
Proof.
  split; [lia|]; split; [lia|]; split; [lia|]; split; [lia|].
  apply (hash_display_roundtrip (mkHash 0 10 171 255)); cbn [h0 h1 h2 h3]; lia.
Defined.

Lemma get_snapshot_reachable_witness :
  exists v0 v,
    ViewResources_new Z byte_pixels plain_codec [0%Z] 1 1 = Some v0 /\
    run Z byte_pixels plain_codec plain_codec edit_session v0 = Some v /\
    btree_get 1 (data Z (mkResources Z [(1, v)] [] None)) = Some v /\
    exists s, get_snapshot Z (mkResources Z [(1, v)] [] None) 1 = Some (s, pixels Z v) /\
      nth_error (ne_to_list (snapshots Z v)) (snapshot Z v) = Some s /\ id s = snapshot Z v.
Proof.
  eexists; eexists; split; [reflexivity|]; split; [reflexivity|]; split; [reflexivity|].
  eapply (get_snapshot_reachable Z byte_pixels plain_codec plain_codec 1 _ [0%Z] 1%Z 1%Z edit_session);
    reflexivity.
Defined.

Lemma save_view_reports_cursor_witness :
  exists v0 v,
    ViewResources_new Z byte_pixels plain_codec [0%Z] 1 1 = Some v0 /\
    run Z byte_pixels plain_codec plain_codec edit_session v0 = Some v /\
    btree_get 1 (data Z (mkResources Z [(1, v)] [] None)) = Some v /\
    (save_view Z gray png_ok 1 (mkResources Z [(1, v)] [] None) = SaveErr \/
     exists n, save_view Z gray png_ok 1 (mkResources Z [(1, v)] [] None) = SaveOk (snapshot Z v) n).
Proof.
  eexists; eexists; split; [reflexivity|]; split; [reflexivity|]; split; [reflexivity|].
  eapply (save_view_reports_cursor Z byte_pixels plain_codec plain_codec gray png_ok 1 _ [0%Z] 1%Z 1%Z
            edit_session); reflexivity.
Defined.

Lemma load_image_swaps_channels_witness :
  load_image [1%Z; 2%Z; 3%Z; 4%Z] 1 1 = Some (1%Z, 1%Z, [3%Z; 2%Z; 1%Z; 4%Z]) /\
  (forall k r g b a, firstn 4 (skipn (4 * k) [1%Z; 2%Z; 3%Z; 4%Z]) = [r; g; b; a] ->
                     firstn 4 (skipn (4 * k) [3%Z; 2%Z; 1%Z; 4%Z]) = [b; g; r; a]) /\
  load_image [3%Z; 2%Z; 1%Z; 4%Z] 1 1 = Some (1%Z, 1%Z, [1%Z; 2%Z; 3%Z; 4%Z]).
Proof.
  split; [reflexivity|].
  apply (load_image_swaps_channels [1%Z; 2%Z; 3%Z; 4%Z] 1 1 [3%Z; 2%Z; 1%Z; 4%Z]); reflexivity.
Defined.

Lemma gif_strip_frames_content_witness :
  exists frames n,
    gif_strip_frames Z gray gif_snapshot gif_pixels = Some (frames, n) /\
    forall k, k < nframes gif_snapshot ->
    nth_error frames k =
    Some (List.concat (map (fun r => firstn (Z.to_nat (fw gif_snapshot) * 4)
                                  (skipn ((r * nframes gif_snapshot + k) * (Z.to_nat (fw gif_snapshot) * 4))
                                         (rgba_image Z gray gif_pixels)))
                      (seq 0 (Z.to_nat (fh gif_snapshot))))).
Proof.
  eexists; eexists; split; [reflexivity|].
  eapply (gif_strip_frames_content Z gray gif_snapshot gif_pixels); reflexivity.
Defined.


Lemma add_fresh_id_witness :
  exists m,
    view.count_adds view_session < 2^16 - 1 /\
    view.vm_run 3 view_session view.ViewManager_new = Some m /\
    1 <= fst (view.add view.NoFile 4 4 m) /\
    (forall k v, btree_get k (view.views m) = Some v -> k < fst (view.add view.NoFile 4 4 m)) /\
    btree_get (fst (view.add view.NoFile 4 4 m)) (view.views (snd (view.add view.NoFile 4 4 m))) =
      Some (view.View_new (fst (view.add view.NoFile 4 4 m)) view.NoFile 4 4) /\
    (forall k, k <> fst (view.add view.NoFile 4 4 m) ->
       btree_get k (view.views (snd (view.add view.NoFile 4 4 m))) = btree_get k (view.views m)).
Proof.
  eexists; split; [apply Nat.ltb_lt; vm_compute; reflexivity|]; split; [reflexivity|].
  eapply (view.add_fresh_id 3 view_session); [apply Nat.ltb_lt; vm_compute; reflexivity | reflexivity].
Defined.

Lemma lru_front_is_active_witness :
  exists m,
    view.vm_run 3 view_session view.ViewManager_new = Some m /\
    List.length (view.lru m) <= 3 /\ (view.lru m = [] \/ view.last m = Some (view.active_id m)).
Proof.
  eexists; split; [reflexivity|].
  eapply (view.lru_front_is_active 3 view_session); reflexivity.
Defined.

Lemma remove_active_duplicates_front_witness :
  view.active_id two_views = 2 /\
  filter (fun x => negb (x =? 2)) (view.lru two_views) = [1] /\
  exists m', view.remove 3 2 two_views = Some m' /\ view.active_id m' = 1 /\
    view.lru m' = firstn 3 [1; 1].
Proof.
  split; [reflexivity|]; split; [reflexivity|].
  apply (view.remove_active_duplicates_front 3 two_views 2 1 []); reflexivity.
Defined.

Lemma default_id_not_a_view_witness :
  exists m,
    view.count_adds close_session < 2^16 - 1 /\
    view.vm_run 3 close_session view.ViewManager_new = Some m /\
    btree_get 0 (view.views m) = None /\ (view.active_id m = 0 -> view.active m = None).
Proof.
  eexists; split; [apply Nat.ltb_lt; vm_compute; reflexivity|]; split; [reflexivity|].
  eapply (view.default_id_not_a_view 3 close_session); [apply Nat.ltb_lt; vm_compute; reflexivity | reflexivity].
Defined.
